(** * figure_rq2.py: top-5 scatter figure of F1 harmonic means

    A shallow embedding of [conference_paper_figures/figure_rq2.py] and the
    properties of its pipeline: abbreviation of prompting techniques, the
    per-technique top-5 filter, the marker and colour encodings, the plotted
    points, the legends, the axis limits and the four-format export.

    Modelling conventions.
    - The input is the table that [pd.read_csv] returns at line 22, a list of
      [record]s in file order.
    - Python [str] values are [string]s of ASCII characters; [sorted] on
      strings is the lexicographic order on character codes ([String.le]).
    - Python [dict]s are [gmap]s; a dict comprehension inserts its items from
      left to right, a later item replacing an earlier one with the same key.
    - A [DataFrame] with columns is the list of its rows, in row order; the
      column-less [pd.DataFrame()] of line 42 is kept apart from it, because
      reading a column of it raises.
    - The [f1_harmonic_mean] column holds finite Python floats. A cell is
      given by a rational [Q], the float it holds being the one nearest to it
      ([float_of], the identity on a rational that is a float); comparisons
      are those of the rationals. The arithmetic of line 160 is that of IEEE
      754 binary64 floats, rounding included.
    - An uncaught Python exception is the [Raise] outcome of the [result]
      monad; nothing in the script catches one.
    - Whether a [plt.savefig] call succeeds is up to the environment, a
      parameter of the run.
    - The score annotations of lines 83-99 are the list [texts], kept apart
      from [figure]; the [.2f] formatting of a float is a parameter.
    - [adjust_text], the styling calls and the final [print] feed no value
      read by what is modelled; they are left out. Of the matplotlib calls
      the model keeps the arguments the script hands over, not what
      matplotlib makes of them: [fig_ylim] is the pair given to
      [ax.set_ylim], which matplotlib may still widen or refuse. *)

From Stdlib Require Import Ascii String QArith Floats.SpecFloat.
From stdpp Require Import gmap strings list sorting.

Local Open Scope string_scope.
Local Open Scope list_scope.

(** ** Exceptions and the error monad *)

Inductive exn : Type :=
  | IndexError
  | KeyError (key : string)
  | ValueError
  | OSError (filename : string).

Inductive result (A : Type) : Type :=
  | Ok (a : A)
  | Raise (e : exn).
Arguments Ok {A} a.
Arguments Raise {A} e.

Global Instance result_ret : MRet result := λ A a, Ok a.
Global Instance result_bind : MBind result := λ A B f m,
  match m with
  | Ok a => f a
  | Raise e => Raise e
  end.
Global Instance result_fmap : FMap result := λ A B f m,
  match m with
  | Ok a => Ok (f a)
  | Raise e => Raise e
  end.

Definition is_Ok {A} (m : result A) : Prop := ∃ a, m = Ok a.

(** [[f x for x in l]] with a body that may raise: the first failure aborts. *)
Fixpoint for_each {A B} (f : A → result B) (l : list A) : result (list B) :=
  match l with
  | [] => Ok []
  | x :: l' => y ← f x; ys ← for_each f l'; Ok (y :: ys)
  end.

(** [l[i]] for a list and a non-negative index. *)
Definition getitem {A} (l : list A) (i : nat) : result A :=
  match l !! i with
  | Some a => Ok a
  | None => Raise IndexError
  end.

(** [d[k]] for a dict with string keys. *)
Definition dict_getitem {V} (d : gmap string V) (k : string) : result V :=
  match d !! k with
  | Some v => Ok v
  | None => Raise (KeyError k)
  end.

(** [{k: v for (k, v) in items}]. *)
Definition dict_of {V} (items : list (string * V)) : gmap string V :=
  foldl (λ d kv, <[kv.1 := kv.2]> d) ∅ items.

(** [enumerate(l)]. *)
Definition enumerate {A} (l : list A) : list (nat * A) :=
  zip (seq 0 (length l)) l.

(** ** Strings *)

(** [s.split(sep)] for a one-character separator. *)
Fixpoint split (sep : ascii) (s : string) : list string :=
  match s with
  | EmptyString => [EmptyString]
  | String c s' =>
      if decide (c = sep) then EmptyString :: split sep s'
      else match split sep s' with
           | w :: ws => String c w :: ws
           | [] => [String c EmptyString]
           end
  end.

(** [s.split(sep, maxsplit)]: at most [maxsplit] cuts, from the left. *)
Fixpoint splitn (sep : ascii) (maxsplit : nat) (s : string) : list string :=
  match s with
  | EmptyString => [EmptyString]
  | String c s' =>
      if decide (c = sep) then
        match maxsplit with
        | O => [s]
        | S k => EmptyString :: splitn sep k s'
        end
      else match splitn sep maxsplit s' with
           | w :: ws => String c w :: ws
           | [] => [String c EmptyString]
           end
  end.

(** [c in s] for a one-character [c]. *)
Fixpoint contains (c : ascii) (s : string) : bool :=
  match s with
  | EmptyString => false
  | String c' s' => if decide (c' = c) then true else contains c s'
  end.

(** [s.replace(a, b)] for one-character [a] and [b]. *)
Fixpoint replace (a b : ascii) (s : string) : string :=
  match s with
  | EmptyString => EmptyString
  | String c s' => String (if decide (c = a) then b else c) (replace a b s')
  end.

(** [c.upper()] on an ASCII character. *)
Definition upper (c : ascii) : ascii :=
  let n := N_of_ascii c in
  if (97 <=? n)%N && (n <=? 122)%N then ascii_of_N (n - 32) else c.

(** [''.join(parts)]. *)
Definition join (parts : list string) : string :=
  foldr String.append EmptyString parts.

(** [l[-1]]. *)
Definition getitem_last {A} (l : list A) : result A :=
  match last l with
  | Some a => Ok a
  | None => Raise IndexError
  end.

(** ** Stable sorting and first-occurrence deduplication *)

Section stable_sort.
Context {A : Type} (R : relation A) `{∀ x y, Decision (R x y)}.

Fixpoint insert_sorted (x : A) (l : list A) : list A :=
  match l with
  | [] => [x]
  | y :: l' => if decide (R x y) then x :: y :: l' else y :: insert_sorted x l'
  end.

(** A stable sort: among elements that [R] relates both ways, the one that
    comes first in the input comes first in the output. *)
Fixpoint stable_sort (l : list A) : list A :=
  match l with
  | [] => []
  | x :: l' => insert_sorted x (stable_sort l')
  end.
End stable_sort.

(** [sorted(l)] on strings. *)
Definition sorted (l : list string) : list string := stable_sort String.le l.

(** [Series.unique()]: the distinct values in order of first appearance. *)
Fixpoint unique_from (seen : list string) (l : list string) : list string :=
  match l with
  | [] => []
  | x :: l' =>
      if decide (x ∈ seen) then unique_from seen l'
      else x :: unique_from (x :: seen) l'
  end.
Definition unique (l : list string) : list string := unique_from [] l.

(** [for x in l: s = body(s, x)], aborting at the first exception. *)
Fixpoint for_loop {A S} (body : S → A → result S) (s : S) (l : list A)
    : result S :=
  match l with
  | [] => Ok s
  | x :: l' => s' ← body s x; for_loop body s' l'
  end.

(** [max(l)] of the builtins: the first greatest element; [ValueError] on an
    empty sequence. *)
Definition py_max (l : list Q) : result Q :=
  match l with
  | [] => Raise ValueError
  | x :: l' => Ok (foldl (λ m y, if Qle_bool y m then m else y) x l')
  end.

(** ** Floats *)

(** A Python [float] is an IEEE 754 binary64 number: 53 bits of precision,
    exponents below 1024. *)
Definition prec : Z := 53.
Definition emax : Z := 1024.
Definition float : Type := spec_float.

(** The float nearest to a rational, ties to the even mantissa: what a
    decimal literal of the script denotes, and a rational that is a float
    denotes itself. *)
Definition float_of (q : Q) : float :=
  match Qnum q with
  | Z0 => S754_zero false
  | Zpos n =>
      SFdiv prec emax (S754_finite false n 0) (S754_finite false (Qden q) 0)
  | Zneg n =>
      SFdiv prec emax (S754_finite true n 0) (S754_finite false (Qden q) 0)
  end.

(** [x * y] on floats: the exact product, rounded. *)
Definition float_mul (x y : float) : float := SFmul prec emax x y.

(** The number a finite float stands for. *)
Definition number_of (x : float) : option Q :=
  match x with
  | S754_zero _ => Some 0%Q
  | S754_finite s m e =>
      let n := if s then Zneg m else Zpos m in
      Some (match e with
            | Zneg k => n # 2 ^ k
            | _ => inject_Z (n * 2 ^ e)
            end)
  | _ => None
  end.

(** ** The table and its rows *)

(** One line of [llm_pt_sdp_f1_harmonic_means.csv]. *)
Record record : Type := mkRecord {
  llm : string;
  prompt : string;
  ssvc_decision_point : string;
  f1_harmonic_mean : Q
}.

(** A row of [df] once the column [prompt_numeric] has been added (line 39);
    [None] is the NaN that [Series.map] gives for a key the dict lacks. *)
Record row : Type := mkRow {
  cells :> record;
  prompt_numeric : option nat
}.

(** A frame is [None] for [pd.DataFrame()], which has no columns at all, and
    [Some rows] otherwise. *)
Definition frame : Type := option (list row).

(** [pd.concat([acc, rows])]. *)
Definition pd_concat (acc : frame) (rows : list row) : frame :=
  Some (default [] acc ++ rows).

(** [fr[name]]: a missing column is a [KeyError]. *)
Definition column {A} (name : string) (f : row → A) (fr : frame)
    : result (list A) :=
  match fr with
  | Some rows => Ok (f <$> rows)
  | None => Raise (KeyError name)
  end.

(** The order [nlargest] sorts by: a score at least as high comes first. *)
Definition score_ge (a b : row) : Prop :=
  Qle_bool (f1_harmonic_mean b) (f1_harmonic_mean a).

(** [rows.nlargest(n, 'f1_harmonic_mean')] (pandas, default [keep='first']):
    the first [n] rows in descending order of score, rows of equal score in
    their original order. *)
Definition nlargest (n : nat) (rows : list row) : list row :=
  take n (stable_sort score_ge rows).

(** [word[0]]. *)
Definition first_char (word : string) : result ascii :=
  match word with
  | String c _ => Ok c
  | EmptyString => Raise IndexError
  end.

(** Lines 33-34: the abbreviation of one prompting technique. *)
Definition abbreviate (prompt : string) : result string :=
  let words := split "_" prompt in
  letters ← for_each
    (λ word, c ← first_char word; Ok (String (upper c) EmptyString)) words;
  Ok (join letters).

(** Line 54. *)
Definition markers : list string :=
  ["o"; "s"; "D"; "^"; "v"; "<"; ">"; "p"; "*"; "h"; "H"; "X"].

(** seaborn's ten-colour [colorblind] table (seaborn is not part of the
    repository). *)
Definition colorblind : list string :=
  ["#0173B2"; "#DE8F05"; "#029E73"; "#D55E00"; "#CC78BC";
   "#CA9161"; "#FBAFE4"; "#949494"; "#ECE133"; "#56B4E9"].

(** [sns.color_palette("colorblind", n)]: [n] entries read off the table in
    order; as seaborn documents, asking for more colours than the table holds
    makes it cycle. *)
Definition color_palette (n : nat) : list string :=
  (λ i, colorblind !!! (i mod length colorblind)) <$> seq 0 n.

(** One [ax.scatter] call (lines 71-81). *)
Record scatter : Type := mkScatter {
  sc_x : list (option nat);
  sc_y : list Q;
  sc_c : list string;
  sc_marker : string;
  sc_label : string
}.

(** One [plt.Line2D] legend handle (lines 125 and 132). *)
Record legend_entry : Type := mkLegend {
  le_marker : string;
  le_facecolor : string;
  le_label : string
}.

(** What has been drawn on the axes when the export starts. *)
Record figure : Type := mkFigure {
  fig_scatter : list scatter;
  fig_llm_legend : list legend_entry;
  fig_decision_legend : list legend_entry;
  fig_xticks : list nat;
  fig_xticklabels : list string;
  fig_ylim : float * float
}.

(** Lines 115-123: the legend label of one model. *)
Definition model_label (llm : string) : result string :=
  model_name ← getitem_last (split "/" llm);
  model_name ← (if contains "-" model_name
                then getitem (splitn "-" 1 model_name) 0
                else Ok model_name);
  Ok (match model_name with
      | String c rest => String (upper c) rest
      | EmptyString => EmptyString
      end).

(** [fr[mask]] for a mask computed from the columns of [fr], the first of
    which is [name]. *)
Definition select (name : string) (P : row → Prop) `{∀ r, Decision (P r)}
    (fr : frame) : result (list row) :=
  match fr with
  | Some rows => Ok (filter P rows)
  | None => Raise (KeyError name)
  end.

(** ** The script *)

Section script.
(** [df] as read at line 22. *)
Variable table : list record.

(** Lines 25-27. *)
Definition llms : list string := unique (llm <$> table).
Definition prompts : list string := unique (prompt <$> table).
Definition decision_points : list string :=
  unique (ssvc_decision_point <$> table).

(** Lines 30-35. *)
Definition prompt_abbrev : result (gmap string string) :=
  for_loop
    (λ d p, abbrev ← abbreviate p; Ok (<[p := abbrev]> d)) ∅ prompts.

(** Line 38. *)
Definition prompt_mapping : gmap string nat :=
  dict_of ((λ ip, (ip.2, ip.1)) <$> enumerate (sorted prompts)).

(** Line 39. *)
Definition df : list row :=
  (λ r, mkRow r (prompt_mapping !! prompt r)) <$> table.

(** Lines 42-47. *)
Definition top_df : frame :=
  foldl
    (λ top p, pd_concat top (nlargest 5 (filter (λ r : row, prompt r = p) df)))
    None prompts.

(** Lines 50-51. *)
Definition top_llms : result (list string) :=
  unique <$> column "llm" (λ r, llm r) top_df.
Definition top_decision_points : result (list string) :=
  unique <$> column "ssvc_decision_point" (λ r, ssvc_decision_point r) top_df.

(** Line 55. *)
Definition llm_markers : result (gmap string string) :=
  ls ← top_llms;
  items ← for_each
    (λ il, m ← getitem markers (il.1 mod length markers); Ok (il.2, m))
    (enumerate (sorted ls));
  Ok (dict_of items).

(** Lines 59-60. *)
Definition colors : result (list string) :=
  dps ← top_decision_points; Ok (color_palette (length dps)).
Definition decision_colors : result (gmap string string) :=
  dps ← top_decision_points;
  cs ← colors;
  items ← for_each
    (λ idp, c ← getitem cs idp.1; Ok (idp.2, c)) (enumerate (sorted dps));
  Ok (dict_of items).

(** Lines 69-81: the scatter call of one (model, decision point) pair, if
    the pair has rows in [top_df]. *)
Definition scatter_for (lm dc : gmap string string) (l decision : string)
    : result (list scatter) :=
  subset ← select "llm"
    (λ r : row, llm r = l ∧ ssvc_decision_point r = decision) top_df;
  match subset with
  | [] => Ok []
  | _ =>
      c ← dict_getitem dc decision;
      marker ← dict_getitem lm l;
      name ← getitem_last (split "/" l);
      Ok [mkScatter (prompt_numeric <$> subset)
                    ((λ r : row, f1_harmonic_mean r) <$> subset)
                    (replicate (length subset) c)
                    marker
                    (String.append name (String.append " - " decision))]
  end.

(** Lines 67-81, in call order. *)
Definition scatter_calls : result (list scatter) :=
  ls ← top_llms;
  dps ← top_decision_points;
  lm ← llm_markers;
  dc ← decision_colors;
  calls ← for_each
    (λ l, inner ← for_each (scatter_for lm dc l) (sorted dps);
          Ok (concat inner)) (sorted ls);
  Ok (concat calls).

(** Lines 110-133. *)
Definition legend_elements : result (list legend_entry) :=
  ls ← top_llms;
  dps ← top_decision_points;
  lm ← llm_markers;
  dc ← decision_colors;
  for_models ← for_each
    (λ l, model_name ← model_label l;
          marker ← dict_getitem lm l;
          Ok (mkLegend marker "gray" model_name)) (sorted ls);
  for_decisions ← for_each
    (λ decision, c ← dict_getitem dc decision;
                 Ok (mkLegend "o" c (replace "_" " " decision))) (sorted dps);
  Ok (for_models ++ for_decisions).

(** Lines 159-160: the two limits handed to [ax.set_ylim] at line 161. *)
Definition ylim : result (float * float) :=
  scores ← column "f1_harmonic_mean" (λ r, f1_harmonic_mean r) top_df;
  top ← py_max scores;
  let y_min := float_of 0.5 in
  let y_max := float_mul (float_of top) (float_of 1.05) in
  Ok (y_min, y_max).

(** Lines 30-161: the drawing calls of the script and what it hands to
    them. [Raise] is an exception of one of the script's own statements;
    whether matplotlib and [adjust_text] accept what they are given is not
    modelled. *)
Definition render : result figure :=
  abbrevs ← prompt_abbrev;
  ls ← top_llms;
  _ ← top_decision_points;
  _ ← llm_markers;
  _ ← decision_colors;
  calls ← scatter_calls;
  legend ← legend_elements;
  labels ← for_each (dict_getitem abbrevs) (sorted prompts);
  limits ← ylim;
  Ok (mkFigure calls
               (take (length ls) legend) (drop (length ls) legend)
               (seq 0 (length prompts)) labels
               limits).

(** Whether [plt.savefig] manages to write the named file: the file system
    and the installed image back ends decide. *)
Variable can_write : string → bool.

(** [plt.savefig(fname, ...)] on the list of files written so far. *)
Definition savefig (fname : string) (written : list string)
    : result () * list string :=
  if can_write fname then (Ok (), written ++ [fname])
  else (Raise (OSError fname), written).

(** Statement sequencing: an exception skips what follows. *)
Definition and_then (a b : list string → result () * list string)
    (written : list string) : result () * list string :=
  match a written with
  | (Ok _, written') => b written'
  | (Raise e, written') => (Raise e, written')
  end.

(** Lines 176-179. *)
Definition export : list string → result () * list string :=
  and_then (savefig "prompt_top5_performance_plot.pdf")
  (and_then (savefig "prompt_top5_performance_plot.png")
  (and_then (savefig "prompt_top5_performance_plot.tiff")
            (savefig "prompt_top5_performance_plot.eps"))).

(** The whole run: how it ends and the files it has written by then. *)
Definition main : result figure * list string :=
  match render with
  | Raise e => (Raise e, [])
  | Ok fig =>
      match export [] with
      | (Ok _, written) => (Ok fig, written)
      | (Raise e, written) => (Raise e, written)
      end
  end.
End script.

(** ** The score annotations (lines 83-99) *)

(** One [ax.text] call: where the label is put and what it says. *)
Record text : Type := mkText {
  tx_x : option Q;
  tx_y : Q;
  tx_s : string
}.

Section annotations.
(** [df] as read at line 22. *)
Variable table : list record.

(** [f"{x:.2f}"], Python's fixed-point formatting of a float. *)
Variable format_2f : Q → string.

(** Lines 86-98: the label of one row, 0.15 to the right of its point. *)
Definition text_of (r : row) : text :=
  let label_text := format_2f (f1_harmonic_mean r) in
  mkText ((λ k : nat, inject_Z (Z.of_nat k) + 0.15)%Q <$> prompt_numeric r)
         (f1_harmonic_mean r)
         label_text.

(** Lines 69-99 for one (model, decision point) pair: the scatter call, then
    one label per row of the pair. *)
Definition texts_for (lm dc : gmap string string) (l decision : string)
    : result (list text) :=
  subset ← select "llm"
    (λ r : row, llm r = l ∧ ssvc_decision_point r = decision) (top_df table);
  match subset with
  | [] => Ok []
  | _ => _ ← scatter_for table lm dc l decision; Ok (text_of <$> subset)
  end.

(** Lines 66-99: the list [texts] handed to [adjust_text]. *)
Definition texts : result (list text) :=
  ls ← top_llms table;
  dps ← top_decision_points table;
  lm ← llm_markers table;
  dc ← decision_colors table;
  labels ← for_each
    (λ l, inner ← for_each (texts_for lm dc l) (sorted dps);
          Ok (concat inner)) (sorted ls);
  Ok (concat labels).
End annotations.

(** ** Specification vocabulary *)

(** [sep.join(parts)]. *)
Fixpoint join_with (sep : string) (parts : list string) : string :=
  match parts with
  | [] => EmptyString
  | [w] => w
  | w :: ws => String.append w (String.append sep (join_with sep ws))
  end.

(** [words] are the [sep]-delimited words of [s]: gluing them with [sep]
    gives [s] back and no word contains [sep]. *)
Definition delimited (sep : ascii) (words : list string) (s : string) : Prop :=
  words ≠ [] ∧
  Forall (λ w, contains sep w = false) words ∧
  s = join_with (String sep EmptyString) words.

(** The uppercased first letters of the words, glued together. *)
Fixpoint initials (words : list string) : string :=
  match words with
  | [] => EmptyString
  | String c _ :: ws => String (upper c) (initials ws)
  | EmptyString :: ws => initials ws
  end.

(** A technique name all of whose underscore-delimited words are non-empty. *)
Definition well_delimited (p : string) : Prop :=
  ∃ words, delimited "_" words p ∧ Forall (λ w, w ≠ EmptyString) words.

(** The first character uppercased, the rest untouched. *)
Definition capitalize (s : string) : string :=
  match s with
  | String c rest => String (upper c) rest
  | EmptyString => EmptyString
  end.

(** [l] lists exactly the members of [xs], each once, in ascending order. *)
Definition ascending_listing (l xs : list string) : Prop :=
  StronglySorted (strict String.le) l ∧ ∀ x, x ∈ l ↔ x ∈ xs.

(** The number of occurrences of [c] in [s]. *)
Fixpoint count_char (c : ascii) (s : string) : nat :=
  match s with
  | EmptyString => 0
  | String c' s' => (if decide (c' = c) then 1 else 0) + count_char c s'
  end.

(** A character of the ASCII range. *)
Definition is_ascii (c : ascii) : bool := (N_of_ascii c <? 128)%N.

(** An ASCII lowercase letter. *)
Definition is_lower (c : ascii) : bool :=
  let n := N_of_ascii c in (97 <=? n)%N && (n <=? 122)%N.

(** No two different records of one technique have the same score. *)
Definition no_ties (table : list record) : Prop :=
  ∀ r1 r2 : record, r1 ∈ table → r2 ∈ table → prompt r1 = prompt r2 →
    (f1_harmonic_mean r1 == f1_harmonic_mean r2)%Q → r1 = r2.

(** ** Values of a run, in closed form *)

(** The dict that assigns the entries of [base] cyclically to [keys] in
    order. *)
Definition cyclic_dict (base keys : list string) : gmap string string :=
  dict_of ((λ ik, (ik.2, base !!! (ik.1 mod length base))) <$> enumerate keys).

(** Items whose keys determine their values. *)
Definition functional {V} (items : list (string * V)) : Prop :=
  ∀ x y, x ∈ items → y ∈ items → x.1 = y.1 → x.2 = y.2.

(** [base] is what follows the last [sep] of [s] (all of [s] if it has no
    [sep]). *)
Definition last_component (sep : ascii) (base s : string) : Prop :=
  contains sep base = false ∧
  (s = base ∨ ∃ pre, s = String.append pre (String sep base)).

(** [head] is what precedes the first [sep] of [s] (all of [s] if it has no
    [sep]). *)
Definition before_first (sep : ascii) (head s : string) : Prop :=
  contains sep head = false ∧
  (s = head ∨ ∃ tail, s = String.append head (String sep tail)).

(** What [model_label] returns. *)
Definition model_name_of (l : string) : string :=
  let base := default EmptyString (last (split "/" l)) in
  capitalize (if contains "-" base
              then default EmptyString (head (splitn "-" 1 base))
              else base).

(** The points of one scatter call. *)
Definition points (sc : scatter) : list (option nat * Q) :=
  zip (sc_x sc) (sc_y sc).

(** The point a row is plotted at. *)
Definition point_of (r : row) : option nat * Q :=
  (prompt_numeric r, f1_harmonic_mean r).

(** What [scatter_for] returns when its lookups succeed. *)
Definition scatter_of (lm dc : gmap string string) (rows : list row)
    (l decision : string) : list scatter :=
  match filter (λ r : row, llm r = l ∧ ssvc_decision_point r = decision) rows
  with
  | [] => []
  | subset =>
      [mkScatter (prompt_numeric <$> subset)
                 ((λ r : row, f1_harmonic_mean r) <$> subset)
                 (replicate (length subset) (dc !!! decision))
                 (lm !!! l)
                 (String.append (default EmptyString (last (split "/" l)))
                                (String.append " - " decision))]
  end.

(** The models, respectively the decision points, of a set of rows. *)
Definition models_of (rows : list row) : gset string :=
  list_to_set ((λ r : row, llm r) <$> rows).
Definition decisions_of (rows : list row) : gset string :=
  list_to_set ((λ r : row, ssvc_decision_point r) <$> rows).

(** The rows gathered by the loop of lines 43-47. *)
Definition top_rows (table : list record) : list row :=
  prompts table ≫=
    λ p, nlargest 5 (filter (λ r : row, prompt r = p) (df table)).

(** The distinct models and decision points of the subset, in the order
    the script sorts them. *)
Definition sorted_llms (table : list record) : list string :=
  sorted (unique ((λ r : row, llm r) <$> top_rows table)).
Definition sorted_decisions (table : list record) : list string :=
  sorted (unique ((λ r : row, ssvc_decision_point r) <$> top_rows table)).

(** The two encodings, as the comprehensions of lines 55 and 60 build
    them. *)
Definition marker_dict (table : list record) : gmap string string :=
  cyclic_dict markers (sorted_llms table).
Definition color_dict (table : list record) : gmap string string :=
  cyclic_dict colorblind (sorted_decisions table).

(** The scatter calls, in call order. *)
Definition scatter_list (table : list record) : list scatter :=
  sorted_llms table ≫= λ l,
    sorted_decisions table ≫= λ decision,
      scatter_of (marker_dict table) (color_dict table) (top_rows table)
                 l decision.

(** The handles of the two legends. *)
Definition llm_legend_of (table : list record) : list legend_entry :=
  (λ l, mkLegend (marker_dict table !!! l) "gray" (model_name_of l))
    <$> sorted_llms table.
Definition decision_legend_of (table : list record) : list legend_entry :=
  (λ decision, mkLegend "o" (color_dict table !!! decision)
                        (replace "_" " " decision))
    <$> sorted_decisions table.

(** The figure of a run whose highest subset score is [top]. *)
Definition figure_of (table : list record) (top : Q) : figure :=
  mkFigure (scatter_list table) (llm_legend_of table) (decision_legend_of table)
           (seq 0 (length (prompts table)))
           ((λ p, initials (split "_" p)) <$> sorted (prompts table))
           (float_of 0.5, float_mul (float_of top) (float_of 1.05)).

(** ** Sample inputs *)

(** A table used to exercise the statements below: two techniques, one with
    seven records and two equal scores at the fifth place boundary. *)
Definition example_table : list record :=
  [ mkRecord "openai/gpt-4" "zero_shot" "Exploitation" 0.8%Q;
    mkRecord "meta-llama/llama-3-8b" "zero_shot" "Technical_Impact" 0.7%Q;
    mkRecord "openai/gpt-4" "few_shot" "Exploitation" 0.9%Q;
    mkRecord "gemini-pro" "few_shot" "Automatable" 0.6%Q;
    mkRecord "mistral-7b" "zero_shot" "Exploitation" 0.1%Q;
    mkRecord "mistral-7b" "zero_shot" "Automatable" 0.3%Q;
    mkRecord "gemini-pro" "zero_shot" "Exploitation" 0.3%Q;
    mkRecord "gemini-pro" "zero_shot" "Technical_Impact" 0.7%Q;
    mkRecord "openai/gpt-4" "zero_shot" "Automatable" 0.5%Q ].

(** Thirteen models over three techniques: every record is in the subset. *)
Definition thirteen_models_table : list record :=
  (λ pm : string * string, mkRecord pm.2 pm.1 "Exploitation" 0.5%Q) <$>
  [ ("few_shot", "m00"); ("few_shot", "m01"); ("few_shot", "m02");
    ("few_shot", "m03"); ("one_shot", "m04"); ("one_shot", "m05");
    ("one_shot", "m06"); ("one_shot", "m07"); ("zero_shot", "m08");
    ("zero_shot", "m09"); ("zero_shot", "m10"); ("zero_shot", "m11");
    ("zero_shot", "m12") ].

(** Eleven decision points over three techniques. *)
Definition eleven_decisions_table : list record :=
  (λ pd : string * string, mkRecord "gpt-4" pd.1 pd.2 0.5%Q) <$>
  [ ("few_shot", "d00"); ("few_shot", "d01"); ("few_shot", "d02");
    ("few_shot", "d03"); ("one_shot", "d04"); ("one_shot", "d05");
    ("one_shot", "d06"); ("one_shot", "d07"); ("zero_shot", "d08");
    ("zero_shot", "d09"); ("zero_shot", "d10") ].

(** Two distinct techniques with the same initials. *)
Definition colliding_table : list record :=
  [ mkRecord "gpt-4" "zero_shot" "Exploitation" 0.8%Q;
    mkRecord "gpt-4" "zero_sum" "Exploitation" 0.7%Q ].

(** Seven records of one technique and two of another; no two records of a
    technique have the same score. *)
Definition ranked_table : list record :=
  [ mkRecord "gpt-4" "zero_shot" "Exploitation" 0.3%Q;
    mkRecord "gpt-4" "zero_shot" "Automatable" 0.8%Q;
    mkRecord "gemini-pro" "zero_shot" "Exploitation" 0.5%Q;
    mkRecord "gemini-pro" "zero_shot" "Automatable" 0.9%Q;
    mkRecord "mistral-7b" "zero_shot" "Exploitation" 0.1%Q;
    mkRecord "mistral-7b" "zero_shot" "Automatable" 0.7%Q;
    mkRecord "llama-3" "zero_shot" "Exploitation" 0.6%Q;
    mkRecord "gpt-4" "few_shot" "Exploitation" 0.8%Q;
    mkRecord "gemini-pro" "few_shot" "Exploitation" 0.4%Q ].

(** A technique name with a doubled underscore. *)
Definition doubled_underscore_table : list record :=
  [ mkRecord "gpt-4" "few_shot" "Exploitation" 0.8%Q;
    mkRecord "gpt-4" "zero__shot" "Exploitation" 0.7%Q ].

(** A table whose highest score, times 1.05, is not a float. *)
Definition rounding_table : list record :=
  [ mkRecord "gpt-4" "zero_shot" "Exploitation" 0.47619047619047616%Q ].

(** A table whose one model identifier has an organisation prefix. *)
Definition prefixed_model_table : list record :=
  [ mkRecord "meta-llama/llama-3-8b" "zero_shot" "Technical_Impact" 0.8%Q ].

(** The four output files, in the order they are written. *)
Definition output_files : list string :=
  [ "prompt_top5_performance_plot.pdf"; "prompt_top5_performance_plot.png";
    "prompt_top5_performance_plot.tiff"; "prompt_top5_performance_plot.eps" ].

(** An environment in which every format can be written but TIFF. *)
Definition no_tiff (fname : string) : bool :=
  negb (String.eqb fname "prompt_top5_performance_plot.tiff").

(** ** Strings: splitting and joining *)

Lemma split_not_nil sep s : split sep s ≠ [].
Proof.
  destruct s as [|c s]; simpl; [done|].
  case_decide; [done|]. by destruct (split sep s).
Qed.

Lemma split_no_sep sep w :
  contains sep w = false → split sep w = [w].
Proof.
  induction w as [|c w IH]; simpl; [done|].
  case_decide; [done|]. intros Hw. by rewrite IH.
Qed.

Lemma split_app_sep sep w s :
  contains sep w = false →
  split sep (String.append w (String sep s)) = w :: split sep s.
Proof.
  induction w as [|c w IH]; simpl.
  - intros _. by rewrite decide_True.
  - case_decide; [done|]. intros Hw. by rewrite IH.
Qed.

(** Splitting recovers the delimited words, whatever they are. *)
Lemma split_delimited sep words s :
  delimited sep words s → split sep s = words.
Proof.
  intros (Hne & Hfree & ->).
  induction Hfree as [|w ws Hw Hws IH]; [done|]. clear Hne.
  destruct ws as [|w' ws].
  - simpl. by apply split_no_sep.
  - change (join_with (String sep EmptyString) (w :: w' :: ws))
      with (String.append w
              (String sep (join_with (String sep EmptyString) (w' :: ws)))).
    rewrite split_app_sep by done. by rewrite IH.
Qed.

Lemma split_contains sep s : Forall (λ w, contains sep w = false) (split sep s).
Proof.
  induction s as [|c s IH]; simpl.
  - by repeat constructor.
  - case_decide.
    + by constructor.
    + destruct (split sep s) as [|w ws].
      * repeat constructor. simpl. by rewrite decide_False.
      * inversion_clear IH. constructor; [|done].
        simpl. by rewrite decide_False.
Qed.

Lemma join_with_split sep s :
  join_with (String sep EmptyString) (split sep s) = s.
Proof.
  induction s as [|c s IH]; simpl; [done|].
  case_decide as Hc.
  - subst c. pose proof (split_not_nil sep s).
    destruct (split sep s) as [|w ws] eqn:E; [done|].
    simpl. simpl in IH. by rewrite IH.
  - pose proof (split_not_nil sep s).
    destruct (split sep s) as [|w ws] eqn:E; [done|].
    destruct ws as [|w' ws]; simpl in *; by rewrite <- IH.
Qed.

(** Every string has exactly one list of delimited words: its [split]. *)
Lemma delimited_split sep s : delimited sep (split sep s) s.
Proof.
  split_and!; auto using split_not_nil, split_contains, eq_sym, join_with_split.
Qed.

Lemma delimited_iff sep words s : delimited sep words s ↔ words = split sep s.
Proof.
  split.
  - intros H. symmetry. by apply split_delimited.
  - intros ->. apply delimited_split.
Qed.

(** ** The error monad: loops *)

Lemma bind_Ok {A B} (f : A → result B) a : Ok a ≫= f = f a.
Proof. done. Qed.

Lemma bind_Raise {A B} (f : A → result B) e : Raise e ≫= f = Raise e.
Proof. done. Qed.

Lemma for_each_Ok {A B} (f : A → result B) (g : A → B) l :
  (∀ x, x ∈ l → f x = Ok (g x)) → for_each f l = Ok (g <$> l).
Proof.
  induction l as [|x l IH]; intros Hf; simpl; [done|].
  rewrite Hf by left. simpl. rewrite IH; [done|].
  intros y Hy. apply Hf. by right.
Qed.

Lemma for_each_Raise {A B} (f : A → result B) e l :
  (∀ x, x ∈ l → f x = Raise e ∨ is_Ok (f x)) →
  (∃ x, x ∈ l ∧ f x = Raise e) →
  for_each f l = Raise e.
Proof.
  induction l as [|x l IH]; intros Hall (y & Hy & Hfy).
  - by apply elem_of_nil in Hy.
  - simpl. destruct (Hall x) as [->|[b Hb]]; [by left|done|].
    rewrite Hb. simpl. rewrite IH; [done| |].
    + intros z Hz. apply Hall. by right.
    + apply elem_of_cons in Hy as [->|Hy]; [congruence|eauto].
Qed.

Lemma for_loop_Ok {A S} (body : S → A → result S) (step : S → A → S) s l :
  (∀ s' x, x ∈ l → body s' x = Ok (step s' x)) →
  for_loop body s l = Ok (foldl step s l).
Proof.
  revert s. induction l as [|x l IH]; intros s Hb; simpl; [done|].
  rewrite Hb by left. simpl. apply IH. intros s' y Hy. apply Hb. by right.
Qed.

Lemma for_loop_Raise {A S} (body : S → A → result S) e s l :
  (∀ s' x, x ∈ l → body s' x = Raise e ∨ is_Ok (body s' x)) →
  (∃ x, x ∈ l ∧ ∀ s', body s' x = Raise e) →
  for_loop body s l = Raise e.
Proof.
  revert s. induction l as [|x l IH]; intros s Hall (y & Hy & Hfy).
  - by apply elem_of_nil in Hy.
  - simpl. destruct (Hall s x) as [->|[b Hb]]; [by left|done|].
    rewrite Hb. simpl. apply IH.
    + intros s' z Hz. apply Hall. by right.
    + apply elem_of_cons in Hy as [->|Hy]; [|eauto].
      rewrite Hfy in Hb. done.
Qed.

(** ** Dicts built by insertion *)

Lemma lookup_foldl_insert {A V} (key : A → string) (val : A → V)
    (d : gmap string V) (l : list A) k :
  (∀ x y, x ∈ l → y ∈ l → key x = key y → val x = val y) →
  foldl (λ d x, <[key x := val x]> d) d l !! k =
    match list_find (λ x, key x = k) l with
    | Some (_, x) => Some (val x)
    | None => d !! k
    end.
Proof.
  revert d. induction l as [|x l IH]; intros d Hfun; simpl; [done|].
  rewrite IH by (intros; apply Hfun; by try right).
  case_decide as Hk; simpl.
  - destruct (list_find _ l) as [[i y]|] eqn:E; simpl.
    + apply list_find_Some in E as (Hy & Hky & _).
      f_equal. apply Hfun; [right; by eapply list_elem_of_lookup_2|by left|].
      congruence.
    + subst k. by rewrite lookup_insert_eq.
  - destruct (list_find _ l) as [[i y]|] eqn:E; simpl; [done|].
    by rewrite lookup_insert_ne.
Qed.

Lemma dict_of_lookup_Some {V} (items : list (string * V)) k v :
  functional items → (k, v) ∈ items → dict_of items !! k = Some v.
Proof.
  intros Hfun Hkv. unfold dict_of.
  rewrite (lookup_foldl_insert fst snd) by done.
  destruct (list_find _ items) as [[i y]|] eqn:E.
  - apply list_find_Some in E as (Hy & Hky & _).
    f_equal. apply (Hfun y (k, v)); [by eapply list_elem_of_lookup_2|done..].
  - apply list_find_None in E. rewrite Forall_forall in E.
    by destruct (E _ Hkv).
Qed.

Lemma dict_of_lookup_None {V} (items : list (string * V)) k :
  k ∉ items.*1 → dict_of items !! k = None.
Proof.
  unfold dict_of. generalize (∅ : gmap string V) (lookup_empty (M:=gmap string) (A:=V) k).
  induction items as [|[k' v] items IH]; intros d Hd Hk; simpl; [done|].
  apply IH.
  - rewrite lookup_insert_ne; [done|]. set_solver.
  - set_solver.
Qed.

(** ** First-occurrence deduplication *)

Lemma elem_of_unique_from seen l x :
  x ∈ unique_from seen l ↔ x ∈ l ∧ x ∉ seen.
Proof.
  revert seen. induction l as [|y l IH]; intros seen; simpl.
  - set_solver.
  - case_decide.
    + rewrite IH. set_solver.
    + rewrite elem_of_cons, IH. destruct (decide (x = y)); set_solver.
Qed.

Lemma NoDup_unique_from seen l : NoDup (unique_from seen l).
Proof.
  revert seen. induction l as [|y l IH]; intros seen; simpl.
  - constructor.
  - case_decide; [done|]. constructor; [|done].
    rewrite elem_of_unique_from. set_solver.
Qed.

Lemma elem_of_unique l x : x ∈ unique l ↔ x ∈ l.
Proof. unfold unique. rewrite elem_of_unique_from. set_solver. Qed.

Lemma NoDup_unique l : NoDup (unique l).
Proof. apply NoDup_unique_from. Qed.

Lemma unique_nil_inv l : unique l = [] → l = [].
Proof.
  destruct l as [|x l]; [done|]. intros Hu.
  assert (x ∈ unique (x :: l)) as Hx by (apply elem_of_unique; left).
  rewrite Hu in Hx. by apply elem_of_nil in Hx.
Qed.

(** ** Stable sorting *)

Section stable_sort_correct.
Context {A : Type} (R : relation A) `{∀ x y, Decision (R x y)}.

Lemma insert_sorted_Permutation x l : insert_sorted R x l ≡ₚ x :: l.
Proof.
  induction l as [|y l IH]; simpl; [done|].
  case_decide; [done|]. by rewrite IH, Permutation_swap.
Qed.

Lemma stable_sort_Permutation l : stable_sort R l ≡ₚ l.
Proof.
  induction l as [|x l IH]; simpl; [done|].
  by rewrite insert_sorted_Permutation, IH.
Qed.

Lemma elem_of_stable_sort l x : x ∈ stable_sort R l ↔ x ∈ l.
Proof. by rewrite stable_sort_Permutation. Qed.

Lemma length_stable_sort l : length (stable_sort R l) = length l.
Proof. by rewrite stable_sort_Permutation. Qed.

Lemma NoDup_stable_sort l : NoDup l → NoDup (stable_sort R l).
Proof. by rewrite stable_sort_Permutation. Qed.

Context `{!Total R}.

Lemma HdRel_insert_sorted a x l :
  R a x → HdRel R a l → HdRel R a (insert_sorted R x l).
Proof.
  intros Hax. destruct 1; simpl; [by constructor|].
  case_decide; by constructor.
Qed.

Lemma Sorted_insert_sorted x l :
  Sorted R l → Sorted R (insert_sorted R x l).
Proof.
  induction 1 as [|y l Hl IH Hhd]; simpl.
  - by repeat constructor.
  - case_decide as Hxy.
    + by repeat constructor.
    + constructor; [done|].
      apply HdRel_insert_sorted; [|done].
      by destruct (total R x y).
Qed.

Lemma Sorted_stable_sort l : Sorted R (stable_sort R l).
Proof.
  induction l; simpl; [constructor|by apply Sorted_insert_sorted].
Qed.

Lemma StronglySorted_stable_sort `{!Transitive R} l :
  StronglySorted R (stable_sort R l).
Proof. apply Sorted_StronglySorted; [done|apply Sorted_stable_sort]. Qed.
End stable_sort_correct.

(** Distinct elements in order are in strict order. *)
Lemma StronglySorted_strict {A} (R : relation A) `{!AntiSymm (=) R} l :
  StronglySorted R l → NoDup l → StronglySorted (strict R) l.
Proof.
  induction 1 as [|x l Hl IH Hx]; intros Hnd; [constructor|].
  apply NoDup_cons in Hnd as [Hxl Hnd].
  constructor; [by apply IH|].
  rewrite Forall_forall in Hx |- *. intros y Hy. split; [by apply Hx|].
  intros Hyx. assert (x = y) as -> by (apply (anti_symm R); auto). done.
Qed.

Lemma StronglySorted_strict_NoDup {A} (R : relation A) l :
  StronglySorted (strict R) l → NoDup l.
Proof.
  induction 1 as [|x l Hl IH Hx]; constructor; [|done].
  intros Hxl. rewrite Forall_forall in Hx. destruct (Hx _ Hxl) as [? []]. done.
Qed.

(** [sorted(unique(xs))] is the ascending listing of [xs], and the only one. *)
Lemma sorted_unique_listing xs : ascending_listing (sorted (unique xs)) xs.
Proof.
  split.
  - apply StronglySorted_strict; [apply _| |].
    + apply StronglySorted_stable_sort; apply _.
    + apply NoDup_stable_sort, NoDup_unique.
  - intros x. unfold sorted. by rewrite elem_of_stable_sort, elem_of_unique.
Qed.

Lemma ascending_listing_unique l1 l2 xs :
  ascending_listing l1 xs → ascending_listing l2 xs → l1 = l2.
Proof.
  intros [Hs1 Hm1] [Hs2 Hm2].
  apply (StronglySorted_unique_strong (strict String.le)); [|done..|].
  { intros x1 x2 _ _ [? Hn] [? _]. by destruct Hn. }
  apply NoDup_Permutation.
  - by eapply StronglySorted_strict_NoDup.
  - by eapply StronglySorted_strict_NoDup.
  - intros x. by rewrite Hm1, Hm2.
Qed.

Lemma ascending_listing_NoDup l xs : ascending_listing l xs → NoDup l.
Proof. intros [Hs _]. by eapply StronglySorted_strict_NoDup. Qed.

(** ** Enumeration *)

Lemma enumerate_lookup {A} (l : list A) i :
  enumerate l !! i = (λ x, (i, x)) <$> l !! i.
Proof.
  unfold enumerate. rewrite lookup_zip_with.
  destruct (l !! i) as [x|] eqn:E; simpl.
  - rewrite lookup_seq_lt by (by eapply lookup_lt_Some). done.
  - by destruct (seq 0 (length l) !! i).
Qed.

Lemma elem_of_enumerate {A} (l : list A) i x :
  (i, x) ∈ enumerate l ↔ l !! i = Some x.
Proof.
  rewrite list_elem_of_lookup. split.
  - intros [j Hj]. rewrite enumerate_lookup in Hj.
    destruct (l !! j) eqn:E; simplify_eq/=. done.
  - intros Hi. exists i. by rewrite enumerate_lookup, Hi.
Qed.

(** The dict of a comprehension over [enumerate] of distinct keys. *)
Lemma dict_of_enumerate {V} (val : nat → V) (l : list string) i k :
  NoDup l → l !! i = Some k →
  dict_of ((λ ik, (ik.2, val ik.1)) <$> enumerate l) !! k = Some (val i).
Proof.
  intros Hnd Hi. apply dict_of_lookup_Some.
  - intros [k1 v1] [k2 v2].
    rewrite !list_elem_of_fmap. intros ([i1 x1] & ? & H1) ([i2 x2] & ? & H2) ?.
    simplify_eq/=. apply elem_of_enumerate in H1, H2.
    by rewrite (NoDup_lookup _ _ _ _ Hnd H1 H2).
  - apply list_elem_of_fmap. exists (i, k). split; [done|].
    by apply elem_of_enumerate.
Qed.

Lemma dict_of_enumerate_None {V} (val : nat → V) (l : list string) k :
  k ∉ l → dict_of ((λ ik, (ik.2, val ik.1)) <$> enumerate l) !! k = None.
Proof.
  intros Hk. apply dict_of_lookup_None. intros Hin. destruct Hk.
  apply list_elem_of_fmap in Hin as ([k' v] & -> & Hin).
  apply list_elem_of_fmap in Hin as ([i x] & ? & Hin). simplify_eq/=.
  apply elem_of_enumerate in Hin. by eapply list_elem_of_lookup_2.
Qed.

(** ** The abbreviator (lines 30-35) *)

Lemma join_cons w ws : join (w :: ws) = String.append w (join ws).
Proof. done. Qed.

Lemma abbreviate_delimited words p :
  delimited "_" words p → Forall (λ w, w ≠ EmptyString) words →
  abbreviate p = Ok (initials words).
Proof.
  intros Hd Hne. unfold abbreviate. rewrite (split_delimited _ _ _ Hd).
  rewrite (for_each_Ok _ (λ w, String (upper (default "_"%char (head (list_ascii_of_string w)))) EmptyString)).
  - simpl. f_equal. clear Hd.
    induction Hne as [|w ws Hw _ IH]; [done|].
    destruct w as [|c w]; [done|]. rewrite fmap_cons, join_cons, IH. done.
  - intros w Hw. rewrite Forall_forall in Hne.
    destruct w as [|c w]; [by destruct (Hne _ Hw)|done].
Qed.

Lemma abbreviate_cases p : abbreviate p = Raise IndexError ∨ is_Ok (abbreviate p).
Proof.
  unfold abbreviate.
  induction (split "_" p) as [|w ws IH]; simpl.
  - right. by eexists.
  - destruct w as [|c w]; simpl; [by left|].
    destruct IH as [IH|[a IH]].
    + left. by destruct (for_each _ ws).
    + right. destruct (for_each _ ws); simplify_eq/=. by eexists.
Qed.

Lemma abbreviate_empty_word words p :
  delimited "_" words p → EmptyString ∈ words →
  abbreviate p = Raise IndexError.
Proof.
  intros Hd Hin. unfold abbreviate. rewrite (split_delimited _ _ _ Hd).
  rewrite (for_each_Raise _ IndexError); [done| |].
  - intros w _. destruct w; simpl; [by left|right; by eexists].
  - by exists EmptyString.
Qed.

Lemma abbreviate_Ok_inv p a :
  abbreviate p = Ok a → well_delimited p ∧ a = initials (split "_" p).
Proof.
  intros Ha.
  assert (Forall (λ w, w ≠ EmptyString) (split "_" p)) as Hne.
  { apply Forall_forall. intros w Hw ->.
    rewrite (abbreviate_empty_word (split "_" p)) in Ha;
      [done|apply delimited_split|done]. }
  split.
  - exists (split "_" p). split; [apply delimited_split|done].
  - rewrite (abbreviate_delimited (split "_" p)) in Ha;
      [congruence|apply delimited_split|done].
Qed.

(** Examples of names with an empty word. *)
Lemma abbreviate_leading_underscore s :
  abbreviate (String "_" s) = Raise IndexError.
Proof.
  apply (abbreviate_empty_word (split "_" (String "_" s)));
    [apply delimited_split|]. simpl. left.
Qed.

Lemma split_app sep s1 s2 :
  split sep (String.append s1 (String sep s2)) = split sep s1 ++ split sep s2.
Proof.
  induction s1 as [|c s1 IH]; simpl.
  - by rewrite decide_True.
  - case_decide; [by rewrite IH|].
    rewrite IH. pose proof (split_not_nil sep s1).
    by destruct (split sep s1).
Qed.

Lemma abbreviate_trailing_underscore s :
  abbreviate (String.append s "_") = Raise IndexError.
Proof.
  apply (abbreviate_empty_word (split "_" (String.append s "_")));
    [apply delimited_split|].
  rewrite split_app. simpl. set_solver.
Qed.

Lemma abbreviate_doubled_underscore s1 s2 :
  abbreviate (String.append s1 (String.append "__" s2)) = Raise IndexError.
Proof.
  apply (abbreviate_empty_word
           (split "_" (String.append s1 (String.append "__" s2))));
    [apply delimited_split|].
  change (String.append "__" s2) with (String "_" (String "_" s2)).
  rewrite split_app. simpl. set_solver.
Qed.

Section abbreviator.
Variable table : list record.

Lemma elem_of_prompts p :
  p ∈ prompts table ↔ ∃ r, r ∈ table ∧ prompt r = p.
Proof.
  unfold prompts. rewrite elem_of_unique, list_elem_of_fmap. naive_solver.
Qed.

Lemma prompts_nil : prompts table = [] ↔ table = [].
Proof.
  split; [|by intros ->].
  intros Hp. apply unique_nil_inv in Hp. by apply fmap_nil_inv in Hp.
Qed.

(** When every technique name is well delimited the loop completes, and the
    dict holds the initials of every technique of the table. *)
Lemma prompt_abbrev_Ok :
  Forall (λ r, well_delimited (prompt r)) table →
  ∃ d, prompt_abbrev table = Ok d ∧
       ∀ p, d !! p = if decide (p ∈ prompts table)
                     then Some (initials (split "_" p)) else None.
Proof.
  intros Hwd. eexists. split.
  - unfold prompt_abbrev.
    apply (for_loop_Ok _ (λ d p, <[p := initials (split "_" p)]> d)).
    intros d p Hp. apply elem_of_prompts in Hp as (r & Hr & <-).
    rewrite Forall_forall in Hwd. destruct (Hwd _ Hr) as (ws & Hd & Hne).
    rewrite (abbreviate_delimited _ _ Hd Hne).
    by rewrite (split_delimited _ _ _ Hd).
  - intros p.
    rewrite (lookup_foldl_insert (λ p, p) (λ p, initials (split "_" p)))
      by (by intros ?? _ _ ->).
    destruct (list_find _ _) as [[i q]|] eqn:E.
    + apply list_find_Some in E as (Hq & -> & _).
      rewrite decide_True; [done|by eapply list_elem_of_lookup_2].
    + apply list_find_None in E. rewrite Forall_forall in E.
      rewrite decide_False; [done|]. intros Hp. by destruct (E _ Hp).
Qed.

(** One technique name with an empty word makes the loop raise. *)
Lemma prompt_abbrev_Raise r words :
  r ∈ table → delimited "_" words (prompt r) → EmptyString ∈ words →
  prompt_abbrev table = Raise IndexError.
Proof.
  intros Hr Hd Hw. unfold prompt_abbrev. apply for_loop_Raise.
  - intros d p _. destruct (abbreviate_cases p) as [->|[a ->]];
      [by left|right; by eexists].
  - exists (prompt r). split; [apply elem_of_prompts; eauto|].
    intros d. by rewrite (abbreviate_empty_word _ _ Hd Hw).
Qed.

Lemma prompt_abbrev_Ok_inv d :
  prompt_abbrev table = Ok d → Forall (λ r, well_delimited (prompt r)) table.
Proof.
  intros Hd. apply Forall_forall. intros r Hr.
  destruct (abbreviate_cases (prompt r)) as [Hp|[a Hp]].
  - rewrite (prompt_abbrev_Raise r (split "_" (prompt r))) in Hd;
      [done..|apply delimited_split|].
    destruct (decide (EmptyString ∈ split "_" (prompt r))) as [|Hn]; [done|].
    rewrite (abbreviate_delimited (split "_" (prompt r))) in Hp;
      [done|apply delimited_split|].
    apply Forall_forall. by intros w Hw ->.
  - by apply abbreviate_Ok_inv in Hp as [? _].
Qed.
End abbreviator.

(** ** The top-5 filter (lines 42-47) *)

Lemma score_ge_Qle a b :
  score_ge a b ↔ (f1_harmonic_mean b <= f1_harmonic_mean a)%Q.
Proof. unfold score_ge. rewrite Is_true_true. apply Qle_bool_iff. Qed.

Global Instance score_ge_total : Total score_ge.
Proof.
  intros a b. rewrite !score_ge_Qle.
  destruct (Qlt_le_dec (f1_harmonic_mean a) (f1_harmonic_mean b));
    auto using Qlt_le_weak.
Qed.

Global Instance score_ge_trans : Transitive score_ge.
Proof. intros a b c. rewrite !score_ge_Qle. eauto using Qle_trans. Qed.

(** What [nlargest] keeps and what it leaves out. *)
Lemma nlargest_spec n rows :
  length (nlargest n rows) = n `min` length rows ∧
  rows ≡ₚ nlargest n rows ++ drop n (stable_sort score_ge rows) ∧
  ∀ k e : row, k ∈ nlargest n rows → e ∈ drop n (stable_sort score_ge rows) →
                (f1_harmonic_mean e <= f1_harmonic_mean k)%Q.
Proof.
  unfold nlargest. split_and!.
  - by rewrite length_take, length_stable_sort.
  - by rewrite take_drop, stable_sort_Permutation.
  - intros k e Hk He. apply score_ge_Qle.
    eapply (StronglySorted_app_1_elem_of score_ge); [|done..].
    rewrite take_drop. apply StronglySorted_stable_sort; apply _.
Qed.

Lemma elem_of_nlargest n rows r : r ∈ nlargest n rows → r ∈ rows.
Proof.
  unfold nlargest. intros Hr. apply subseteq_take in Hr.
  by apply elem_of_stable_sort in Hr.
Qed.

Lemma filter_all {A} (P : A → Prop) `{∀ x, Decision (P x)} (l : list A) :
  Forall P l → filter P l = l.
Proof.
  induction 1 as [|x l Hx _ IH]; [done|].
  by rewrite filter_cons_True, IH.
Qed.

Lemma filter_none {A} (P : A → Prop) `{∀ x, Decision (P x)} (l : list A) :
  Forall (λ x, ¬ P x) l → filter P l = [].
Proof.
  induction 1 as [|x l Hx _ IH]; [done|].
  by rewrite filter_cons_False, IH.
Qed.

Lemma filter_fmap {A B} (f : A → B) (P : B → Prop) `{∀ y, Decision (P y)}
    (l : list A) :
  filter P (f <$> l) = f <$> filter (λ x, P (f x)) l.
Proof.
  induction l as [|x l IH]; [done|].
  rewrite fmap_cons, !filter_cons, IH. by case_decide.
Qed.

Lemma foldl_pd_concat (g : string → list row) acc ps :
  foldl (λ top p, pd_concat top (g p)) acc ps =
    match ps with
    | [] => acc
    | _ => Some (default [] acc ++ (ps ≫= g))
    end.
Proof.
  revert acc. induction ps as [|p ps IH]; intros acc; [done|].
  simpl. rewrite IH. destruct ps as [|q ps]; simpl.
  - unfold pd_concat. by rewrite (right_id_L [] (++)).
  - unfold pd_concat. simpl. by rewrite !(assoc_L (++)).
Qed.

(** Rows that carry their own key: filtering a concatenation of per-key
    blocks by a key returns that key's block. *)
Lemma filter_bind_prompt (g : string → list row) ps p :
  NoDup ps → (∀ q (r : row), r ∈ g q → prompt r = q) →
  filter (λ r : row, prompt r = p) (ps ≫= g) =
    if decide (p ∈ ps) then g p else [].
Proof.
  intros Hnd Hg. induction Hnd as [|q ps Hq Hnd IH]; [done|].
  rewrite bind_cons, filter_app, IH.
  destruct (decide (q = p)) as [->|Hqp].
  - rewrite (filter_all _ (g p))
      by (apply Forall_forall; intros r Hr; by apply Hg).
    repeat case_decide; try set_solver. by rewrite (right_id_L [] (++)).
  - rewrite (filter_none _ (g q)).
    + repeat case_decide; set_solver.
    + apply Forall_forall. intros r Hr Hp. apply Hg in Hr. congruence.
Qed.

Section top_five.
Variable table : list record.

Lemma top_df_eq :
  top_df table = match table with [] => None | _ => Some (top_rows table) end.
Proof.
  unfold top_df. rewrite foldl_pd_concat. fold (top_rows table).
  destruct table as [|r t] eqn:E; [done|].
  destruct (prompts (r :: t)) eqn:Ep; [|done].
  by apply prompts_nil in Ep.
Qed.

Lemma cells_df : cells <$> df table = table.
Proof.
  unfold df. rewrite <- list_fmap_compose. apply list_fmap_id.
Qed.

Lemma filter_df p :
  cells <$> filter (λ r : row, prompt r = p) (df table) =
  filter (λ r : record, prompt r = p) table.
Proof.
  rewrite <- cells_df at 2. by rewrite filter_fmap.
Qed.

Lemma filter_top_rows p :
  filter (λ r : row, prompt r = p) (top_rows table) =
  nlargest 5 (filter (λ r : row, prompt r = p) (df table)).
Proof.
  unfold top_rows. rewrite filter_bind_prompt.
  - case_decide as Hp; [done|].
    assert (filter (λ r : row, prompt r = p) (df table) = []) as ->; [|done].
    apply filter_none, Forall_forall. intros r Hr Hrp. destruct Hp.
    apply elem_of_prompts. exists (cells r). split; [|done].
    rewrite <- cells_df. by apply list_elem_of_fmap_2.
  - apply NoDup_unique.
  - intros q r Hr. apply elem_of_nlargest in Hr.
    by apply list_elem_of_filter in Hr as [? _].
Qed.

Lemma elem_of_top_rows r : r ∈ top_rows table → r ∈ df table.
Proof.
  unfold top_rows. rewrite list_elem_of_bind. intros (p & Hr & _).
  apply elem_of_nlargest in Hr. by apply list_elem_of_filter in Hr as [_ ?].
Qed.
End top_five.

(** C1: for every technique, the subset [top_df] holds min(5, n) of the
    technique's n records, and every record of the technique left out scores
    no more than every record of the technique kept. *)
Theorem top_df_five_highest_per_technique (table : list record) :
  table ≠ [] →
  ∃ rows, top_df table = Some rows ∧
    ∀ p, ∃ excluded : list record,
      let kept := filter (λ r : row, prompt r = p) rows in
      length kept = 5 `min` length (filter (λ r : record, prompt r = p) table) ∧
      filter (λ r : record, prompt r = p) table ≡ₚ (cells <$> kept) ++ excluded ∧
      ∀ (k : row) (e : record), k ∈ kept → e ∈ excluded →
        (f1_harmonic_mean e <= f1_harmonic_mean k)%Q.
Proof.
  intros Hne. exists (top_rows table). split.
  { rewrite top_df_eq. by destruct table. }
  intros p.
  set (all := filter (λ r : row, prompt r = p) (df table)).
  exists (cells <$> drop 5 (stable_sort score_ge all)). simpl.
  rewrite filter_top_rows. fold all.
  destruct (nlargest_spec 5 all) as (Hlen & Hperm & Hord).
  split_and!.
  - rewrite Hlen. unfold all. by rewrite <- filter_df, length_fmap.
  - rewrite <- filter_df, <- fmap_app. fold all. by rewrite <- Hperm.
  - intros k e Hk He. apply list_elem_of_fmap in He as (e' & -> & He).
    by apply Hord.
Qed.

Lemma top_df_five_highest_per_technique_witness :
  example_table ≠ [] ∧
  ∃ rows, top_df example_table = Some rows ∧
    ∀ p, ∃ excluded : list record,
      let kept := filter (λ r : row, prompt r = p) rows in
      length kept =
        5 `min` length (filter (λ r : record, prompt r = p) example_table) ∧
      filter (λ r : record, prompt r = p) example_table
        ≡ₚ (cells <$> kept) ++ excluded ∧
      ∀ (k : row) (e : record), k ∈ kept → e ∈ excluded →
        (f1_harmonic_mean e <= f1_harmonic_mean k)%Q.
Proof.
  split; [done|]. apply (top_df_five_highest_per_technique example_table). done.
Defined.

(** On the example: of the seven [zero_shot] records the two lowest, 0.1 and
    one of the two 0.3, are left out, the later 0.3 by the tie rule. *)
Example top_df_example :
  (cells <$> default [] (top_df example_table)) =
  [ mkRecord "openai/gpt-4" "zero_shot" "Exploitation" 0.8%Q;
    mkRecord "meta-llama/llama-3-8b" "zero_shot" "Technical_Impact" 0.7%Q;
    mkRecord "gemini-pro" "zero_shot" "Technical_Impact" 0.7%Q;
    mkRecord "openai/gpt-4" "zero_shot" "Automatable" 0.5%Q;
    mkRecord "mistral-7b" "zero_shot" "Automatable" 0.3%Q;
    mkRecord "openai/gpt-4" "few_shot" "Exploitation" 0.9%Q;
    mkRecord "gemini-pro" "few_shot" "Automatable" 0.6%Q ].
Proof. vm_compute. reflexivity. Qed.

(** ** Lookups that cannot fail *)

Lemma getitem_lt `{Inhabited A} (l : list A) i :
  i < length l → getitem l i = Ok (l !!! i).
Proof.
  intros Hi. unfold getitem.
  by rewrite (list_lookup_lookup_total_lt l i Hi).
Qed.

Lemma dict_getitem_Some {V} (d : gmap string V) k v :
  d !! k = Some v → dict_getitem d k = Ok v.
Proof. unfold dict_getitem. by intros ->. Qed.

Lemma getitem_last_split sep s :
  getitem_last (split sep s) = Ok (default EmptyString (last (split sep s))).
Proof.
  unfold getitem_last. pose proof (split_not_nil sep s) as Hne.
  destruct (last (split sep s)) eqn:E; [done|].
  by apply last_None in E.
Qed.

Lemma py_max_spec (l : list Q) :
  l ≠ [] →
  ∃ m, py_max l = Ok m ∧ m ∈ l ∧ ∀ s, s ∈ l → (s <= m)%Q.
Proof.
  destruct l as [|x l]; [done|]. intros _. simpl.
  eexists. split; [done|].
  assert (∀ l x, let m := foldl (λ m y : Q, if Qle_bool y m then m else y) x l in
                 (m = x ∨ m ∈ l) ∧ (x <= m)%Q ∧ ∀ s, s ∈ l → (s <= m)%Q) as Hfold.
  { clear. induction l as [|y l IH]; intros x; simpl.
    - split_and!; [by left|apply Qle_refl|]. intros s Hs. by apply elem_of_nil in Hs.
    - destruct (Qle_bool y x) eqn:E.
      + apply Qle_bool_iff in E. destruct (IH x) as (Hin & Hx & Hl).
        split_and!; [set_solver|done|].
        intros s [->|Hs]%elem_of_cons; [by eapply Qle_trans|by apply Hl].
      + assert (x <= y)%Q as Hxy.
        { destruct (Qlt_le_dec x y) as [?|Hyx]; [by apply Qlt_le_weak|].
          apply Qle_bool_iff in Hyx. congruence. }
        destruct (IH y) as (Hin & Hy & Hl).
        split_and!; [set_solver|by eapply Qle_trans|].
        intros s [->|Hs]%elem_of_cons; [done|by apply Hl]. }
  destruct (Hfold l x) as (Hin & Hx & Hl). split; [set_solver|].
  intros s [->|Hs]%elem_of_cons; [done|by apply Hl].
Qed.

(** ** The encoders (lines 50-60) *)

Section encoders.
Variable table : list record.
Hypothesis table_not_empty : table ≠ [].

Lemma top_df_Some : top_df table = Some (top_rows table).
Proof. rewrite top_df_eq. by destruct table. Qed.

Lemma top_rows_not_empty : top_rows table ≠ [].
Proof.
  destruct table as [|r t] eqn:E; [done|]. rewrite <- E. intros Hnil.
  pose proof (filter_top_rows table (prompt r)) as Hf.
  rewrite Hnil in Hf. simpl in Hf.
  destruct (nlargest_spec 5 (filter (λ r' : row, prompt r' = prompt r) (df table)))
    as (Hlen & _). rewrite <- Hf in Hlen. simpl in Hlen.
  assert (mkRow r (prompt_mapping table !! prompt r)
            ∈ filter (λ r' : row, prompt r' = prompt r) (df table)) as Hin.
  { apply list_elem_of_filter. split; [done|].
    unfold df. rewrite E. left. }
  destruct (filter _ (df table)); [by apply elem_of_nil in Hin|simpl in Hlen; lia].
Qed.

Lemma top_llms_Ok :
  top_llms table = Ok (unique ((λ r : row, llm r) <$> top_rows table)).
Proof. unfold top_llms. by rewrite top_df_Some. Qed.

Lemma top_decision_points_Ok :
  top_decision_points table =
  Ok (unique ((λ r : row, ssvc_decision_point r) <$> top_rows table)).
Proof. unfold top_decision_points. by rewrite top_df_Some. Qed.

Lemma sorted_llms_listing :
  ascending_listing (sorted_llms table) ((λ r : row, llm r) <$> top_rows table).
Proof. apply sorted_unique_listing. Qed.

Lemma sorted_decisions_listing :
  ascending_listing (sorted_decisions table)
    ((λ r : row, ssvc_decision_point r) <$> top_rows table).
Proof. apply sorted_unique_listing. Qed.

Lemma llm_markers_Ok : llm_markers table = Ok (marker_dict table).
Proof.
  unfold llm_markers. rewrite top_llms_Ok, bind_Ok. fold (sorted_llms table).
  rewrite (for_each_Ok _ (λ il, (il.2, markers !!! (il.1 mod length markers)))).
  - done.
  - intros [i l] _. cbn [fst snd]. rewrite getitem_lt; [done|].
    apply Nat.mod_upper_bound. done.
Qed.

Lemma colors_Ok :
  colors table = Ok (color_palette (length (sorted_decisions table))).
Proof.
  unfold colors. rewrite top_decision_points_Ok. simpl.
  unfold sorted_decisions, sorted. by rewrite length_stable_sort.
Qed.

Lemma color_palette_lookup n i :
  i < n → color_palette n !! i = Some (colorblind !!! (i mod length colorblind)).
Proof.
  intros Hi. unfold color_palette.
  by rewrite list_lookup_fmap, lookup_seq_lt.
Qed.

Lemma length_color_palette n : length (color_palette n) = n.
Proof. unfold color_palette. by rewrite length_fmap, length_seq. Qed.

Lemma decision_colors_Ok : decision_colors table = Ok (color_dict table).
Proof.
  unfold decision_colors. rewrite colors_Ok, top_decision_points_Ok, !bind_Ok.
  fold (sorted_decisions table).
  rewrite (for_each_Ok _
    (λ idp, (idp.2, colorblind !!! (idp.1 mod length colorblind)))).
  - done.
  - intros [i dp] Hi. cbn [fst snd]. apply elem_of_enumerate in Hi.
    apply lookup_lt_Some in Hi. unfold getitem.
    by rewrite color_palette_lookup.
Qed.
End encoders.

(** ** Cyclic assignment from a fixed sequence *)

Section cyclic.
Variable base : list string.
Variable keys : list string.
Hypothesis base_NoDup : NoDup base.
Hypothesis base_not_empty : 0 < length base.
Hypothesis keys_NoDup : NoDup keys.

Lemma cyclic_lookup i k :
  keys !! i = Some k → cyclic_dict base keys !! k = base !! (i mod length base).
Proof.
  intros Hi. unfold cyclic_dict.
  rewrite (dict_of_enumerate (λ i, base !!! (i mod length base)) _ i) by done.
  symmetry. apply list_lookup_lookup_total_lt.
  by apply Nat.mod_upper_bound, Nat.neq_0_lt_0.
Qed.

Lemma cyclic_dom k : is_Some (cyclic_dict base keys !! k) ↔ k ∈ keys.
Proof.
  split.
  - intros Hk. destruct (decide (k ∈ keys)) as [|Hn]; [done|].
    unfold cyclic_dict in Hk.
    rewrite (dict_of_enumerate_None (λ i, base !!! (i mod length base)))
      in Hk by done.
    by destruct Hk.
  - intros (i & Hi)%list_elem_of_lookup. rewrite (cyclic_lookup i) by done.
    apply lookup_lt_is_Some. by apply Nat.mod_upper_bound, Nat.neq_0_lt_0.
Qed.

(** The values in use are the first min(n, k) entries of the sequence. *)
Lemma cyclic_img :
  map_img (cyclic_dict base keys) =@{gset string}
  list_to_set (take (length keys `min` length base) base).
Proof.
  apply set_eq. intros v.
  rewrite elem_of_map_img, elem_of_list_to_set, elem_of_take. split.
  - intros (k & Hk).
    assert (k ∈ keys) as (i & Hi)%list_elem_of_lookup
      by (apply cyclic_dom; eauto).
    rewrite (cyclic_lookup i) in Hk by done.
    exists (i mod length base). split; [done|].
    apply lookup_lt_Some in Hi.
    assert (i mod length base < length base)
      by (by apply Nat.mod_upper_bound, Nat.neq_0_lt_0).
    destruct (decide (i < length base)).
    + rewrite Nat.mod_small by done. lia.
    + lia.
  - intros (j & Hj & Hlt).
    assert (j < length keys) as (k & Hk)%lookup_lt_is_Some by lia.
    exists k. rewrite (cyclic_lookup j) by done.
    rewrite Nat.mod_small by lia. done.
Qed.

Lemma cyclic_img_size :
  size (map_img (cyclic_dict base keys) : gset string) = length keys `min` length base.
Proof.
  rewrite cyclic_img, size_list_to_set.
  - rewrite length_take. lia.
  - eapply sublist_NoDup; [exact base_NoDup|apply sublist_take].
Qed.
End cyclic.

Lemma markers_NoDup : NoDup markers.
Proof. apply (bool_decide_unpack _). by vm_compute. Qed.

Lemma colorblind_NoDup : NoDup colorblind.
Proof. apply (bool_decide_unpack _). by vm_compute. Qed.

Lemma listing_size l xs :
  ascending_listing l xs → size (list_to_set xs : gset string) = length l.
Proof.
  intros Hl. rewrite <- (size_list_to_set (C:=gset string) l)
    by (by eapply ascending_listing_NoDup).
  f_equal. apply set_eq. intros x. rewrite !elem_of_list_to_set.
  symmetry. apply Hl.
Qed.

(** C3, as stated, fails on thirteen models: twelve marker shapes are in
    use, which is neither thirteen modulo 12 nor congruent to thirteen
    modulo 12. *)
Lemma marker_count_not_modulo :
  ∃ rows d,
    top_df thirteen_models_table = Some rows ∧
    llm_markers thirteen_models_table = Ok d ∧
    size (models_of rows) = 13 ∧
    size (map_img d : gset string) = 12 ∧
    size (map_img d : gset string) ≠ size (models_of rows) mod 12 ∧
    size (map_img d : gset string) mod 12 ≠ size (models_of rows) mod 12.
Proof.
  eexists _, _. split_and!.
  - vm_compute. reflexivity.
  - vm_compute. reflexivity.
  - vm_compute. reflexivity.
  - vm_compute. reflexivity.
  - vm_compute. discriminate.
  - vm_compute. discriminate.
Qed.

(** C3, amended: the number of distinct marker shapes assigned is the number
    of distinct models of the subset, capped at 12. *)
Theorem marker_count_capped (table : list record) :
  table ≠ [] →
  ∃ rows d,
    top_df table = Some rows ∧
    llm_markers table = Ok d ∧
    size (map_img d : gset string) = size (models_of rows) `min` 12.
Proof.
  intros Hne. exists (top_rows table). eexists. split_and!.
  - by apply top_df_Some.
  - by apply llm_markers_Ok.
  - pose proof (sorted_llms_listing table) as Hl.
    unfold marker_dict. rewrite cyclic_img_size.
    + unfold models_of. by rewrite (listing_size _ _ Hl).
    + apply markers_NoDup.
    + simpl. lia.
    + by eapply ascending_listing_NoDup.
Qed.

Lemma marker_count_capped_witness :
  thirteen_models_table ≠ [] ∧
  ∃ rows d,
    top_df thirteen_models_table = Some rows ∧
    llm_markers thirteen_models_table = Ok d ∧
    size (map_img d : gset string) = size (models_of rows) `min` 12.
Proof.
  split; [done|]. apply (marker_count_capped thirteen_models_table). done.
Defined.

(** C5: the model at rank [i] of the ascending listing of the subset's
    distinct models gets [markers[i mod 12]]; ranks twelve apart share a
    marker. *)
Theorem llm_markers_by_rank (table : list record) :
  table ≠ [] →
  ∃ rows d models,
    top_df table = Some rows ∧
    llm_markers table = Ok d ∧
    ascending_listing models ((λ r : row, llm r) <$> rows) ∧
    (∀ m, is_Some (d !! m) ↔ m ∈ models) ∧
    (∀ i m, models !! i = Some m → d !! m = markers !! (i mod 12)) ∧
    (∀ i m m', models !! i = Some m → models !! (i + 12) = Some m' →
               d !! m = d !! m').
Proof.
  intros Hne. exists (top_rows table). eexists. exists (sorted_llms table).
  pose proof (sorted_llms_listing table) as Hl.
  pose proof (ascending_listing_NoDup _ _ Hl) as Hnd.
  assert (0 < length markers) as Hpos by (simpl; lia).
  split_and!.
  - by apply top_df_Some.
  - by apply llm_markers_Ok.
  - done.
  - intros m. by apply cyclic_dom.
  - intros i m Hi. unfold marker_dict.
    by rewrite (cyclic_lookup markers _ Hpos Hnd i).
  - intros i m m' Hi Hi'. unfold marker_dict.
    rewrite (cyclic_lookup markers _ Hpos Hnd i) by done.
    rewrite (cyclic_lookup markers _ Hpos Hnd (i + 12)) by done.
    change (length markers) with 12.
    by rewrite <- (Nat.Div0.add_mod_idemp_r i 12 12), Nat.Div0.mod_same, Nat.add_0_r.
Qed.

Lemma llm_markers_by_rank_witness :
  thirteen_models_table ≠ [] ∧
  ∃ rows d models,
    top_df thirteen_models_table = Some rows ∧
    llm_markers thirteen_models_table = Ok d ∧
    ascending_listing models ((λ r : row, llm r) <$> rows) ∧
    (∀ m, is_Some (d !! m) ↔ m ∈ models) ∧
    (∀ i m, models !! i = Some m → d !! m = markers !! (i mod 12)) ∧
    (∀ i m m', models !! i = Some m → models !! (i + 12) = Some m' →
               d !! m = d !! m').
Proof.
  split; [done|]. apply (llm_markers_by_rank thirteen_models_table). done.
Defined.

(** On thirteen models the thirteenth, [m12], wraps around to the first
    marker. *)
Example llm_markers_wraps :
  (λ d, (d !! "m00", d !! "m11", d !! "m12")) <$>
    llm_markers thirteen_models_table =
  Ok (Some "o", Some "X", Some "o").
Proof. vm_compute. reflexivity. Qed.

(** C6, as stated, fails on eleven decision points: the palette has eleven
    entries, the eleventh equal to the first, so ten colours are in use. *)
Lemma color_count_not_category_count :
  ∃ rows cs d,
    top_df eleven_decisions_table = Some rows ∧
    colors eleven_decisions_table = Ok cs ∧
    decision_colors eleven_decisions_table = Ok d ∧
    size (decisions_of rows) = 11 ∧
    length cs = 11 ∧
    cs !! 10 = cs !! 0 ∧
    d !! "d10" = d !! "d00" ∧
    size (map_img d : gset string) = 10 ∧
    size (map_img d : gset string) ≠ size (decisions_of rows).
Proof.
  eexists _, _, _. split_and!.
  - vm_compute. reflexivity.
  - vm_compute. reflexivity.
  - vm_compute. reflexivity.
  - vm_compute. reflexivity.
  - vm_compute. reflexivity.
  - vm_compute. reflexivity.
  - vm_compute. reflexivity.
  - vm_compute. reflexivity.
  - vm_compute. discriminate.
Qed.

(** C6, amended: the palette has one entry per distinct decision point of
    the subset; the decision point at rank [i] of the ascending listing gets
    entry [i], which is colour [i mod 10] of the ten-colour table; the number
    of distinct colours in use is the number of decision points capped at
    10, hence equal to it for up to ten decision points. *)
Theorem decision_colors_by_rank (table : list record) :
  table ≠ [] →
  ∃ rows cs d decisions,
    top_df table = Some rows ∧
    colors table = Ok cs ∧
    decision_colors table = Ok d ∧
    ascending_listing decisions ((λ r : row, ssvc_decision_point r) <$> rows) ∧
    length cs = size (decisions_of rows) ∧
    (∀ c, is_Some (d !! c) ↔ c ∈ decisions) ∧
    (∀ i c, decisions !! i = Some c →
            d !! c = cs !! i ∧ cs !! i = colorblind !! (i mod 10)) ∧
    size (map_img d : gset string) = size (decisions_of rows) `min` 10 ∧
    ((size (decisions_of rows) ≤ 10)%nat →
     size (map_img d : gset string) = size (decisions_of rows)).
Proof.
  intros Hne. exists (top_rows table). eexists. eexists.
  exists (sorted_decisions table).
  pose proof (sorted_decisions_listing table) as Hl.
  pose proof (ascending_listing_NoDup _ _ Hl) as Hnd.
  assert (0 < length colorblind) as Hpos by (simpl; lia).
  assert (size (map_img (color_dict table) : gset string)
          = size (decisions_of (top_rows table)) `min` 10) as Hsize.
  { unfold color_dict. rewrite cyclic_img_size by auto using colorblind_NoDup.
    unfold decisions_of. by rewrite (listing_size _ _ Hl). }
  split_and!.
  - by apply top_df_Some.
  - by apply colors_Ok.
  - by apply decision_colors_Ok.
  - done.
  - rewrite length_color_palette. unfold decisions_of.
    by rewrite (listing_size _ _ Hl).
  - intros c. by apply cyclic_dom.
  - intros i c Hi. unfold color_dict.
    rewrite (cyclic_lookup colorblind _ Hpos Hnd i) by done.
    rewrite color_palette_lookup by (by eapply lookup_lt_Some).
    rewrite <- list_lookup_lookup_total_lt
      by (by apply Nat.mod_upper_bound, Nat.neq_0_lt_0).
    done.
  - done.
  - intros Hle. rewrite Hsize. lia.
Qed.

Lemma decision_colors_by_rank_witness :
  example_table ≠ [] ∧
  ∃ rows cs d decisions,
    top_df example_table = Some rows ∧
    colors example_table = Ok cs ∧
    decision_colors example_table = Ok d ∧
    ascending_listing decisions ((λ r : row, ssvc_decision_point r) <$> rows) ∧
    length cs = size (decisions_of rows) ∧
    (∀ c, is_Some (d !! c) ↔ c ∈ decisions) ∧
    (∀ i c, decisions !! i = Some c →
            d !! c = cs !! i ∧ cs !! i = colorblind !! (i mod 10)) ∧
    size (map_img d : gset string) = size (decisions_of rows) `min` 10 ∧
    ((size (decisions_of rows) ≤ 10)%nat →
     size (map_img d : gset string) = size (decisions_of rows)).
Proof.
  split; [done|]. apply (decision_colors_by_rank example_table). done.
Defined.

(** ** The x positions (lines 38-39) *)

Section positions.
Variable table : list record.

Lemma sorted_prompts_listing :
  ascending_listing (sorted (prompts table)) (prompt <$> table).
Proof. apply sorted_unique_listing. Qed.

Lemma prompt_mapping_lookup k p :
  sorted (prompts table) !! k = Some p → prompt_mapping table !! p = Some k.
Proof.
  intros Hk. unfold prompt_mapping.
  apply (dict_of_enumerate (λ i, i)); [|done].
  eapply ascending_listing_NoDup, sorted_prompts_listing.
Qed.

(** Every row of [df] sits at the rank of its technique. *)
Lemma df_prompt_numeric (r : row) :
  r ∈ df table →
  ∃ k, prompt_numeric r = Some k ∧
       sorted (prompts table) !! k = Some (prompt r).
Proof.
  unfold df. intros (rec & -> & Hrec)%list_elem_of_fmap. simpl.
  assert (prompt rec ∈ sorted (prompts table)) as (k & Hk)%list_elem_of_lookup.
  { apply sorted_prompts_listing. by apply list_elem_of_fmap_2. }
  exists k. by rewrite (prompt_mapping_lookup k).
Qed.
End positions.

(** ** The scatter calls (lines 67-81) *)

(** Splitting rows by a key and gluing the blocks back loses nothing. *)
Lemma bind_filter_key_Permutation {A} (key : A → string) (keys : list string)
    (l : list A) :
  NoDup keys → (∀ x, x ∈ l → key x ∈ keys) →
  keys ≫= (λ k, filter (λ x, key x = k) l) ≡ₚ l.
Proof.
  intros Hnd. induction l as [|x l IH]; intros Hcover.
  - clear. induction keys as [|k keys IH]; [done|]. by rewrite bind_cons, IH.
  - transitivity (x :: (keys ≫= (λ k, filter (λ x, key x = k) l)));
      [|rewrite IH; [done|intros; apply Hcover; by right]].
    assert (key x ∈ keys) as Hx by (apply Hcover; left).
    clear IH Hcover. induction Hnd as [|k keys Hk Hnd IH]; [by apply elem_of_nil in Hx|].
    rewrite !bind_cons, filter_cons. case_decide as Hkx.
    + assert (keys ≫= (λ k, filter (λ x, key x = k) (x :: l))
              = keys ≫= (λ k, filter (λ x, key x = k) l)) as ->; [|done].
      apply Forall_bind_ext, Forall_forall. intros k' Hk'.
      rewrite filter_cons_False; [done|]. intros Hkx'. set_solver.
    + rewrite IH by set_solver. by rewrite Permutation_middle.
Qed.

Lemma zip_fmap_same {A B C} (f : A → B) (g : A → C) (l : list A) :
  zip (f <$> l) (g <$> l) = (λ x, (f x, g x)) <$> l.
Proof. induction l as [|x l IH]; [done|]. rewrite !fmap_cons. simpl. by rewrite IH. Qed.

Lemma points_scatter_of lm dc rows l decision :
  scatter_of lm dc rows l decision ≫= points =
  point_of <$>
    filter (λ r : row, llm r = l ∧ ssvc_decision_point r = decision) rows.
Proof.
  unfold scatter_of. destruct (filter _ rows) as [|r subset]; [done|].
  rewrite bind_cons. change ([] ≫= points) with (@nil (option nat * Q)).
  rewrite (right_id_L [] (++)). unfold points. cbn [sc_x sc_y].
  apply zip_fmap_same.
Qed.

Lemma scatter_of_shape lm dc rows l decision sc :
  sc ∈ scatter_of lm dc rows l decision →
  length (sc_x sc) = length (sc_y sc) ∧ length (sc_c sc) = length (sc_y sc) ∧
  sc_marker sc = lm !!! l ∧ Forall (λ c, c = dc !!! decision) (sc_c sc).
Proof.
  unfold scatter_of. destruct (filter _ rows) as [|r subset].
  - by intros ?%elem_of_nil.
  - intros ->%list_elem_of_singleton. cbn [sc_x sc_y sc_c sc_marker].
    rewrite !length_fmap, length_replicate. split_and!; try done.
    apply Forall_forall. by intros c (-> & _)%elem_of_replicate.
Qed.

(** ** Model names for the legend (lines 115-123) *)

Lemma last_component_split sep base s :
  last_component sep base s → last (split sep s) = Some base.
Proof.
  intros [Hfree [->|[pre ->]]].
  - by rewrite split_no_sep.
  - rewrite split_app, (split_no_sep _ base) by done. apply last_snoc.
Qed.

Lemma splitn_not_nil sep n s : splitn sep n s ≠ [].
Proof.
  destruct s as [|c s]; simpl; [done|].
  case_decide; [by destruct n|]. by destruct (splitn sep n s).
Qed.

Lemma splitn_no_sep sep n s : contains sep s = false → splitn sep n s = [s].
Proof.
  induction s as [|c s IH]; simpl; [done|].
  case_decide; [done|]. intros Hs. by rewrite IH.
Qed.

Lemma splitn_app_sep sep k h t :
  contains sep h = false →
  splitn sep (S k) (String.append h (String sep t)) = h :: splitn sep k t.
Proof.
  induction h as [|c h IH]; simpl.
  - intros _. by rewrite decide_True.
  - case_decide; [done|]. intros Hh. by rewrite IH.
Qed.

Lemma contains_app_sep sep h t :
  contains sep (String.append h (String sep t)) = true.
Proof.
  induction h as [|c h IH]; simpl.
  - by rewrite decide_True.
  - by case_decide.
Qed.

Lemma before_first_splitn sep hd s :
  before_first sep hd s →
  (if contains sep s then default EmptyString (head (splitn sep 1 s)) else s)
  = hd.
Proof.
  intros [Hfree [->|[tail ->]]].
  - by rewrite Hfree.
  - by rewrite contains_app_sep, splitn_app_sep.
Qed.

Lemma model_label_Ok l : model_label l = Ok (model_name_of l).
Proof.
  unfold model_label, model_name_of.
  rewrite getitem_last_split, bind_Ok.
  set (base := default EmptyString (last (split "/" l))).
  destruct (contains "-" base); [|done].
  unfold getitem. pose proof (splitn_not_nil "-" 1 base).
  by destruct (splitn "-" 1 base).
Qed.

(** The label is taken from the last slash-delimited component. *)
Lemma model_name_of_spec l base hd :
  last_component "/" base l → before_first "-" hd base →
  model_name_of l = capitalize hd.
Proof.
  intros Hbase Hhd. unfold model_name_of.
  rewrite (last_component_split _ _ _ Hbase). simpl.
  by rewrite (before_first_splitn _ _ _ Hhd).
Qed.

Lemma replace_get a b s n :
  String.get n (replace a b s) =
  (λ c, if decide (c = a) then b else c) <$> String.get n s.
Proof.
  revert n. induction s as [|c s IH]; intros n; simpl; [done|].
  destruct n; [done|]. apply IH.
Qed.

Lemma replace_length a b s : String.length (replace a b s) = String.length s.
Proof. induction s; simpl; congruence. Qed.

(** ** The renderer (lines 62-161) *)

Lemma concat_fmap_bind {A B} (f : A → list B) (l : list A) :
  concat (f <$> l) = l ≫= f.
Proof. induction l as [|x l IH]; [done|]. by rewrite fmap_cons, bind_cons, <- IH. Qed.

Lemma bind_bind {A B C} (f : A → list B) (g : B → list C) (l : list A) :
  (l ≫= f) ≫= g = l ≫= (λ x, f x ≫= g).
Proof.
  induction l as [|x l IH]; [done|]. by rewrite !bind_cons, bind_app, IH.
Qed.

Lemma fmap_bind_comm {A B C} (f : A → list B) (g : B → C) (l : list A) :
  g <$> (l ≫= f) = l ≫= (λ x, g <$> f x).
Proof.
  induction l as [|x l IH]; [done|]. by rewrite !bind_cons, fmap_app, IH.
Qed.

Lemma bind_Permutation_ext {A B} (f g : A → list B) (l : list A) :
  (∀ x, x ∈ l → f x ≡ₚ g x) → l ≫= f ≡ₚ l ≫= g.
Proof.
  induction l as [|x l IH]; intros Hfg; [done|].
  rewrite !bind_cons, Hfg by left. rewrite IH; [done|].
  intros y Hy. apply Hfg. by right.
Qed.

Section renderer.
Variable table : list record.
Hypothesis table_not_empty : table ≠ [].

Lemma marker_dict_lookup l :
  l ∈ sorted_llms table →
  marker_dict table !! l = Some (marker_dict table !!! l).
Proof.
  intros Hl. apply lookup_lookup_total. apply cyclic_dom; [simpl; lia| |done].
  eapply ascending_listing_NoDup, sorted_llms_listing.
Qed.

Lemma color_dict_lookup decision :
  decision ∈ sorted_decisions table →
  color_dict table !! decision = Some (color_dict table !!! decision).
Proof.
  intros Hl. apply lookup_lookup_total. apply cyclic_dom; [simpl; lia| |done].
  eapply ascending_listing_NoDup, sorted_decisions_listing.
Qed.

Lemma scatter_for_Ok l decision :
  l ∈ sorted_llms table → decision ∈ sorted_decisions table →
  scatter_for table (marker_dict table) (color_dict table) l decision =
  Ok (scatter_of (marker_dict table) (color_dict table) (top_rows table)
                 l decision).
Proof.
  intros Hl Hd. unfold scatter_for, scatter_of.
  rewrite top_df_Some by done. unfold select. rewrite bind_Ok.
  destruct (filter _ (top_rows table)) as [|r subset]; [done|].
  rewrite (dict_getitem_Some _ _ _ (color_dict_lookup _ Hd)), bind_Ok.
  rewrite (dict_getitem_Some _ _ _ (marker_dict_lookup _ Hl)), bind_Ok.
  by rewrite getitem_last_split, bind_Ok.
Qed.

Lemma scatter_calls_Ok : scatter_calls table = Ok (scatter_list table).
Proof.
  unfold scatter_calls.
  rewrite top_llms_Ok, top_decision_points_Ok, !bind_Ok by done.
  rewrite llm_markers_Ok, decision_colors_Ok, !bind_Ok by done.
  fold (sorted_llms table) (sorted_decisions table).
  rewrite (for_each_Ok _ (λ l, sorted_decisions table ≫= λ decision,
    scatter_of (marker_dict table) (color_dict table) (top_rows table)
               l decision)).
  - rewrite bind_Ok. by rewrite concat_fmap_bind.
  - intros l Hl.
    rewrite (for_each_Ok _ (scatter_of (marker_dict table) (color_dict table)
                                       (top_rows table) l)).
    + by rewrite bind_Ok, concat_fmap_bind.
    + intros decision Hd. by apply scatter_for_Ok.
Qed.

(** Every row of the subset is plotted, once, and nothing else is. *)
Lemma scatter_list_points :
  scatter_list table ≫= points ≡ₚ point_of <$> top_rows table.
Proof.
  pose proof (sorted_llms_listing table) as Hl.
  pose proof (sorted_decisions_listing table) as Hd.
  unfold scatter_list. rewrite bind_bind.
  transitivity (point_of <$>
    (sorted_llms table ≫= λ l, filter (λ r : row, llm r = l) (top_rows table))).
  2:{ rewrite bind_filter_key_Permutation; [done|by eapply ascending_listing_NoDup|].
      intros r Hr. apply Hl.
      by apply list_elem_of_fmap_2 with (f := λ r : row, llm r). }
  rewrite fmap_bind_comm. apply bind_Permutation_ext. intros l _.
  rewrite bind_bind.
  transitivity (point_of <$>
    (sorted_decisions table ≫= λ decision,
       filter (λ r : row, ssvc_decision_point r = decision)
              (filter (λ r : row, llm r = l) (top_rows table)))).
  2:{ rewrite bind_filter_key_Permutation; [done|by eapply ascending_listing_NoDup|].
      intros r [_ Hr]%list_elem_of_filter. apply Hd.
      by apply list_elem_of_fmap_2 with (f := λ r : row, ssvc_decision_point r). }
  rewrite fmap_bind_comm. apply bind_Permutation_ext. intros decision _.
  rewrite points_scatter_of, list_filter_filter.
  erewrite list_filter_iff; [done|]. naive_solver.
Qed.

Lemma legend_elements_Ok :
  legend_elements table = Ok (llm_legend_of table ++ decision_legend_of table).
Proof.
  unfold legend_elements.
  rewrite top_llms_Ok, top_decision_points_Ok, !bind_Ok by done.
  rewrite llm_markers_Ok, decision_colors_Ok, !bind_Ok by done.
  fold (sorted_llms table) (sorted_decisions table).
  rewrite (for_each_Ok _
    (λ l, mkLegend (marker_dict table !!! l) "gray" (model_name_of l))
    (sorted_llms table)).
  - rewrite bind_Ok.
    rewrite (for_each_Ok _
      (λ decision, mkLegend "o" (color_dict table !!! decision)
                            (replace "_" " " decision))
      (sorted_decisions table)); [done|].
    intros decision Hd.
    by rewrite (dict_getitem_Some _ _ _ (color_dict_lookup _ Hd)).
  - intros l Hl. rewrite model_label_Ok, bind_Ok.
    by rewrite (dict_getitem_Some _ _ _ (marker_dict_lookup _ Hl)).
Qed.

Lemma length_llm_legend_of :
  length (llm_legend_of table) =
  length (unique ((λ r : row, llm r) <$> top_rows table)).
Proof.
  unfold llm_legend_of, sorted_llms, sorted.
  by rewrite length_fmap, length_stable_sort.
Qed.

(** A non-empty table of well-delimited technique names is drawn. *)
Lemma render_Ok :
  Forall (λ r, well_delimited (prompt r)) table →
  ∃ top, render table = Ok (figure_of table top) ∧
         top ∈ (λ r : row, f1_harmonic_mean r) <$> top_rows table ∧
         ∀ s, s ∈ (λ r : row, f1_harmonic_mean r) <$> top_rows table →
              (s <= top)%Q.
Proof.
  intros Hwd.
  destruct (prompt_abbrev_Ok table Hwd) as (abbrevs & Habbrevs & Hlookup).
  destruct (py_max_spec ((λ r : row, f1_harmonic_mean r) <$> top_rows table))
    as (top & Htop & Hin & Hmax).
  { intros Hnil%fmap_nil_inv. by apply top_rows_not_empty in Hnil. }
  exists top. split; [|done].
  unfold render. rewrite Habbrevs, bind_Ok.
  rewrite top_llms_Ok, top_decision_points_Ok, !bind_Ok by done.
  rewrite llm_markers_Ok, decision_colors_Ok, !bind_Ok by done.
  rewrite scatter_calls_Ok, legend_elements_Ok, !bind_Ok.
  rewrite (for_each_Ok _ (λ p, initials (split "_" p))).
  - rewrite bind_Ok. unfold ylim, column. rewrite top_df_Some, bind_Ok by done.
    rewrite Htop, !bind_Ok. unfold figure_of.
    rewrite <- length_llm_legend_of.
    by rewrite take_app_length, drop_app_length.
  - intros p Hp. apply dict_getitem_Some. rewrite Hlookup.
    apply elem_of_stable_sort in Hp. by rewrite decide_True.
Qed.
End renderer.

(** The script draws a figure exactly on the non-empty tables all of whose
    technique names are well delimited. *)
Lemma render_Ok_iff table :
  is_Ok (render table) ↔
  table ≠ [] ∧ Forall (λ r, well_delimited (prompt r)) table.
Proof.
  split.
  - intros [fig Hfig]. unfold render in Hfig.
    destruct (prompt_abbrev table) as [d|e] eqn:Hd; [|done].
    split; [|by eapply prompt_abbrev_Ok_inv].
    intros ->. done.
  - intros [Hne Hwd]. destruct (render_Ok table Hne Hwd) as (top & -> & _).
    by eexists.
Qed.

Lemma well_delimited_split p :
  well_delimited p ↔ Forall (λ w, w ≠ EmptyString) (split "_" p).
Proof.
  split.
  - intros (words & Hd & Hne). by rewrite (split_delimited _ _ _ Hd).
  - intros Hne. exists (split "_" p). split; [apply delimited_split|done].
Qed.

Global Instance well_delimited_dec p : Decision (well_delimited p).
Proof.
  refine (cast_if (decide (Forall (λ w, w ≠ EmptyString) (split "_" p))));
    by rewrite well_delimited_split.
Defined.

(** Closes a decidable goal about a concrete table by evaluation. *)
Ltac by_evaluation := apply (bool_decide_unpack _); vm_compute; exact I.

(** The float products behind the two tables used below: 0.9 times 1.05 is
    the float that prints as 0.9450000000000001, and 0.47619047619047616
    times 1.05 is the float 0.5. *)
Example float_mul_examples :
  float_mul (float_of 0.9) (float_of 1.05) = float_of 0.9450000000000001 ∧
  float_mul (float_of 0.47619047619047616) (float_of 1.05) = float_of 0.5 ∧
  float_of 0.9450000000000001 ≠ float_of 0.945.
Proof. split_and!; [vm_compute; reflexivity..|]. intros H. vm_compute in H. discriminate H. Qed.

(** What [render] stores as the limits is what lines 159-160 compute. *)
Lemma render_ylim table fig :
  render table = Ok fig → ylim table = Ok (fig_ylim fig).
Proof.
  unfold render. intros H.
  repeat match type of H with
         | (?m ≫= _) = _ => destruct m eqn:?; [rewrite bind_Ok in H|done]
         end.
  by injection H as <-.
Qed.

(** C2, as stated, fails on a table whose highest score is
    0.47619047619047616. The upper limit handed to [ax.set_ylim] is the
    float 0.5: it is not 1.05 times the score, neither for the decimal nor
    for the floats that the score and 1.05 denote, and it coincides with the
    lower limit, so that the axis cannot run from the one to the other. *)
Lemma ylim_not_exact_product :
  ∃ fig top factor upper,
    render rounding_table = Ok fig ∧
    number_of (float_of 0.47619047619047616) = Some top ∧
    number_of (float_of 1.05) = Some factor ∧
    number_of (fig_ylim fig).2 = Some upper ∧
    (fig_ylim fig).2 = (fig_ylim fig).1 ∧
    ¬ (upper == 1.05 * 0.47619047619047616)%Q ∧
    ¬ (upper == factor * top)%Q.
Proof.
  assert (ylim rounding_table = Ok (float_of 0.5, float_of 0.5)) as Hlim
    by (vm_compute; reflexivity).
  destruct (render rounding_table) as [fig|e] eqn:Hfig; [|by vm_compute in Hfig].
  apply render_ylim in Hfig. rewrite Hlim in Hfig. injection Hfig as Hfig.
  eexists fig, _, _, _. rewrite <- Hfig.
  split_and!; [done|vm_compute; reflexivity..|done| |];
    intros Heq; vm_compute in Heq; discriminate Heq.
Qed.

(** C2, amended: the limits handed to [ax.set_ylim] are 0.5, whatever the
    data, and the float product of the highest score of the subset and
    1.05, which is that product rounded to the nearest float. *)
Theorem ylim_half_to_rounded_product (table : list record) :
  table ≠ [] →
  ∃ rows top,
    top_df table = Some rows ∧
    top ∈ (λ r : row, f1_harmonic_mean r) <$> rows ∧
    (∀ s, s ∈ (λ r : row, f1_harmonic_mean r) <$> rows → (s <= top)%Q) ∧
    ylim table = Ok (float_of 0.5, float_mul (float_of top) (float_of 1.05)) ∧
    ∀ fig, render table = Ok fig →
      fig_ylim fig = (float_of 0.5, float_mul (float_of top) (float_of 1.05)).
Proof.
  intros Hne.
  destruct (py_max_spec ((λ r : row, f1_harmonic_mean r) <$> top_rows table))
    as (top & Htop & Hin & Hmax).
  { intros Hnil%fmap_nil_inv. by apply top_rows_not_empty in Hnil. }
  assert (ylim table =
          Ok (float_of 0.5, float_mul (float_of top) (float_of 1.05))) as Hlim.
  { unfold ylim, column. by rewrite top_df_Some, bind_Ok, Htop by done. }
  exists (top_rows table), top.
  split_and!; [by apply top_df_Some|done..|].
  intros fig Hfig%render_ylim. congruence.
Qed.

Lemma ylim_half_to_rounded_product_witness :
  example_table ≠ [] ∧
  ∃ rows top,
    top_df example_table = Some rows ∧
    top ∈ (λ r : row, f1_harmonic_mean r) <$> rows ∧
    (∀ s, s ∈ (λ r : row, f1_harmonic_mean r) <$> rows → (s <= top)%Q) ∧
    ylim example_table =
      Ok (float_of 0.5, float_mul (float_of top) (float_of 1.05)) ∧
    ∀ fig, render example_table = Ok fig →
      fig_ylim fig = (float_of 0.5, float_mul (float_of top) (float_of 1.05)).
Proof.
  split; [done|]. apply (ylim_half_to_rounded_product example_table). done.
Defined.

(** On the example the highest subset score is 0.9 and the upper limit is
    the float 0.9450000000000001. *)
Example ylim_example :
  (λ fig, (number_of (fig_ylim fig).1, number_of (fig_ylim fig).2))
    <$> render example_table =
  Ok (Some (4503599627370496 # 9007199254740992),
      Some (8511803295730238 # 9007199254740992)).
Proof. vm_compute. reflexivity. Qed.

(** C7: when every technique name has only non-empty underscore-delimited
    words, the abbreviator maps every technique of the table, and nothing
    else, to the uppercased first letters of its words; the abbreviation of a
    technique depends on that technique alone, so techniques with the same
    initials get the same abbreviation. *)
Theorem prompt_abbrev_initials (table : list record) :
  Forall (λ r, well_delimited (prompt r)) table →
  ∃ d, prompt_abbrev table = Ok d ∧
    (∀ p, is_Some (d !! p) ↔ p ∈ prompt <$> table) ∧
    (∀ r words, r ∈ table → delimited "_" words (prompt r) →
                d !! prompt r = Some (initials words)) ∧
    (∀ r1 r2 words1 words2, r1 ∈ table → r2 ∈ table →
       delimited "_" words1 (prompt r1) → delimited "_" words2 (prompt r2) →
       initials words1 = initials words2 → d !! prompt r1 = d !! prompt r2).
Proof.
  intros Hwd. destruct (prompt_abbrev_Ok table Hwd) as (d & Hd & Hlookup).
  assert (∀ r words, r ∈ table → delimited "_" words (prompt r) →
                     d !! prompt r = Some (initials words)) as Hinit.
  { intros r words Hr Hdel. rewrite Hlookup, decide_True.
    - by rewrite (split_delimited _ _ _ Hdel).
    - apply elem_of_prompts. eauto. }
  exists d. split_and!; [done| |done|].
  - intros p. rewrite Hlookup. case_decide as Hp.
    + split; [intros _|by eexists].
      apply elem_of_prompts in Hp as (r & Hr & <-). by apply list_elem_of_fmap_2.
    + split; [by intros []|]. intros (r & -> & Hr)%list_elem_of_fmap.
      destruct Hp. apply elem_of_prompts. eauto.
  - intros r1 r2 ws1 ws2 Hr1 Hr2 Hd1 Hd2 Heq.
    by rewrite (Hinit _ _ Hr1 Hd1), (Hinit _ _ Hr2 Hd2), Heq.
Qed.

Lemma prompt_abbrev_initials_witness :
  Forall (λ r, well_delimited (prompt r)) colliding_table ∧
  ∃ d, prompt_abbrev colliding_table = Ok d ∧
    (∀ p, is_Some (d !! p) ↔ p ∈ prompt <$> colliding_table) ∧
    (∀ r words, r ∈ colliding_table → delimited "_" words (prompt r) →
                d !! prompt r = Some (initials words)) ∧
    (∀ r1 r2 words1 words2, r1 ∈ colliding_table → r2 ∈ colliding_table →
       delimited "_" words1 (prompt r1) → delimited "_" words2 (prompt r2) →
       initials words1 = initials words2 → d !! prompt r1 = d !! prompt r2).
Proof.
  assert (Forall (λ r, well_delimited (prompt r)) colliding_table) as Hwd
    by by_evaluation.
  split; [exact Hwd|]. apply (prompt_abbrev_initials colliding_table). exact Hwd.
Defined.

(** [zero_shot] and [zero_sum] both become [ZS]. *)
Example prompt_abbrev_collision :
  (λ d, (d !! "zero_shot", d !! "zero_sum")) <$> prompt_abbrev colliding_table
  = Ok (Some "ZS", Some "ZS").
Proof. vm_compute. reflexivity. Qed.

(** C10: a technique name with an empty underscore-delimited word makes the
    abbreviator raise [IndexError]; the run ends there, with no figure and no
    file. *)
Theorem empty_word_aborts (table : list record) (can_write : string → bool)
    (r : record) (words : list string) :
  r ∈ table →
  delimited "_" words (prompt r) →
  EmptyString ∈ words →
  abbreviate (prompt r) = Raise IndexError ∧
  prompt_abbrev table = Raise IndexError ∧
  render table = Raise IndexError ∧
  main table can_write = (Raise IndexError, []).
Proof.
  intros Hr Hd Hw.
  assert (prompt_abbrev table = Raise IndexError) as Ha
    by (by eapply prompt_abbrev_Raise).
  assert (render table = Raise IndexError) as Hrender
    by (unfold render; by rewrite Ha).
  split_and!; [by eapply abbreviate_empty_word|done..|].
  unfold main. by rewrite Hrender.
Qed.

Lemma empty_word_aborts_witness :
  mkRecord "gpt-4" "zero__shot" "Exploitation" 0.7%Q ∈ doubled_underscore_table ∧
  delimited "_" ["zero"; ""; "shot"] "zero__shot" ∧
  EmptyString ∈ ["zero"; ""; "shot"] ∧
  abbreviate "zero__shot" = Raise IndexError ∧
  prompt_abbrev doubled_underscore_table = Raise IndexError ∧
  render doubled_underscore_table = Raise IndexError ∧
  main doubled_underscore_table (λ _, true) = (Raise IndexError, []).
Proof.
  assert (mkRecord "gpt-4" "zero__shot" "Exploitation" 0.7%Q
            ∈ doubled_underscore_table) as Hr by (right; left).
  assert (delimited "_" ["zero"; ""; "shot"] "zero__shot") as Hd
    by (split_and!; [done|by repeat constructor|done]).
  assert (EmptyString ∈ ["zero"; ""; "shot"]) as Hw by (right; left).
  split_and!; [exact Hr|exact Hd|exact Hw|..];
    apply (empty_word_aborts doubled_underscore_table (λ _, true) _ _ Hr Hd Hw).
Defined.

(** ** The export (lines 176-179) *)

(** C4, as stated, fails: when saving the TIFF fails, the run ends with the
    PDF and the PNG written and nothing else, a proper non-empty subset of
    the four files. *)
Lemma export_leaves_partial_output :
  main example_table no_tiff =
    (Raise (OSError "prompt_top5_performance_plot.tiff"),
     [ "prompt_top5_performance_plot.pdf"; "prompt_top5_performance_plot.png" ]).
Proof. vm_compute. reflexivity. Qed.

(** The run in closed form: what [render] gives, then the saves up to the
    first one that fails. *)
Lemma main_closed_form (table : list record) (can_write : string → bool) :
  main table can_write =
    match render table with
    | Raise e => (Raise e, [])
    | Ok fig =>
        match list_find (λ fname, can_write fname = false) output_files with
        | None => (Ok fig, output_files)
        | Some (n, fname) => (Raise (OSError fname), take n output_files)
        end
    end.
Proof.
  unfold main. destruct (render table) as [fig|e]; [|done].
  unfold export, and_then, savefig, output_files. simpl.
  destruct (can_write "prompt_top5_performance_plot.pdf") eqn:Hpdf; simpl;
    rewrite ?Hpdf; [|done].
  destruct (can_write "prompt_top5_performance_plot.png") eqn:Hpng; simpl;
    rewrite ?Hpng; [|done].
  destruct (can_write "prompt_top5_performance_plot.tiff") eqn:Htiff; simpl;
    rewrite ?Htiff; [|done].
  destruct (can_write "prompt_top5_performance_plot.eps") eqn:Heps; simpl;
    rewrite ?Heps; done.
Qed.

(** C4, amended: the files written when the run ends are the first [n] of
    PDF, PNG, TIFF, EPS, in that order. The run completes exactly when the
    figure is drawn and every save succeeds, and then [n] is 4. Otherwise it
    ends with an exception: that of the renderer, with no file written, or
    that of the first save that fails, with the [n] files saved before it
    left in place. *)
Theorem export_writes_a_prefix (table : list record) (can_write : string → bool) :
  ∃ n, (main table can_write).2 = take n output_files ∧
    match (main table can_write).1 with
    | Ok fig =>
        render table = Ok fig ∧ n = 4 ∧
        Forall (λ fname, can_write fname = true) output_files
    | Raise e =>
        n < 4 ∧
        (render table = Raise e ∧ n = 0 ∨
         is_Ok (render table) ∧
         ∃ fname, output_files !! n = Some fname ∧ e = OSError fname ∧
                  can_write fname = false ∧
                  Forall (λ fname, can_write fname = true) (take n output_files))
    end.
Proof.
  rewrite main_closed_form. destruct (render table) as [fig|e].
  - destruct (list_find _ output_files) as [[n fname]|] eqn:Hfind.
    + apply list_find_Some in Hfind as (Hn & Hfail & Hbefore).
      exists n. split; [done|]. cbn [fst snd].
      split; [apply lookup_lt_Some in Hn; simpl in Hn; lia|]. right.
      split; [by eexists|]. exists fname. split_and!; [done..|].
      apply Forall_forall. intros f (j & Hj & Hlt)%elem_of_take.
      specialize (Hbefore j f Hj Hlt).
      destruct (can_write f) eqn:E; [done|by destruct Hbefore].
    + apply list_find_None in Hfind. exists 4. split; [done|]. simpl.
      split_and!; [done..|].
      eapply Forall_impl; [exact Hfind|]. intros f Hf.
      destruct (can_write f) eqn:E; [done|by destruct Hf].
  - exists 0. split; [done|]. simpl. split; [lia|]. by left.
Qed.

(** C8: the plotted points are those of the rows of the subset, each once;
    the x of a row is the rank of its technique in the ascending listing of
    the techniques of the whole table and its y is its score; the ticks are
    the ranks of all techniques, labelled with their abbreviations. *)
Theorem points_at_technique_rank (table : list record) :
  table ≠ [] →
  Forall (λ r, well_delimited (prompt r)) table →
  ∃ fig rows techniques,
    render table = Ok fig ∧
    top_df table = Some rows ∧
    ascending_listing techniques (prompt <$> table) ∧
    fig_scatter fig ≫= points ≡ₚ
      (λ r : row, (prompt_numeric r, f1_harmonic_mean r)) <$> rows ∧
    (∀ r : row, r ∈ rows →
       ∃ k, prompt_numeric r = Some k ∧ techniques !! k = Some (prompt r)) ∧
    Forall (λ sc, length (sc_x sc) = length (sc_y sc)) (fig_scatter fig) ∧
    fig_xticks fig = seq 0 (length techniques) ∧
    length (fig_xticklabels fig) = length techniques ∧
    (∀ k p words, techniques !! k = Some p → delimited "_" words p →
                  fig_xticklabels fig !! k = Some (initials words)).
Proof.
  intros Hne Hwd. destruct (render_Ok table Hne Hwd) as (top & Hfig & _).
  exists (figure_of table top), (top_rows table), (sorted (prompts table)).
  split_and!.
  - done.
  - by apply top_df_Some.
  - apply sorted_prompts_listing.
  - apply scatter_list_points.
  - intros r Hr. by apply df_prompt_numeric, elem_of_top_rows.
  - apply Forall_forall. intros sc. simpl. unfold scatter_list.
    intros (l & (decision & Hsc & _)%list_elem_of_bind & _)%list_elem_of_bind.
    by apply scatter_of_shape in Hsc as (? & _).
  - simpl. unfold sorted. by rewrite length_stable_sort.
  - simpl. by rewrite length_fmap.
  - intros k p words Hk Hd. simpl. rewrite list_lookup_fmap, Hk. simpl.
    by rewrite (split_delimited _ _ _ Hd).
Qed.

Lemma points_at_technique_rank_witness :
  example_table ≠ [] ∧
  Forall (λ r, well_delimited (prompt r)) example_table ∧
  ∃ fig rows techniques,
    render example_table = Ok fig ∧
    top_df example_table = Some rows ∧
    ascending_listing techniques (prompt <$> example_table) ∧
    fig_scatter fig ≫= points ≡ₚ
      (λ r : row, (prompt_numeric r, f1_harmonic_mean r)) <$> rows ∧
    (∀ r : row, r ∈ rows →
       ∃ k, prompt_numeric r = Some k ∧ techniques !! k = Some (prompt r)) ∧
    Forall (λ sc, length (sc_x sc) = length (sc_y sc)) (fig_scatter fig) ∧
    fig_xticks fig = seq 0 (length techniques) ∧
    length (fig_xticklabels fig) = length techniques ∧
    (∀ k p words, techniques !! k = Some p → delimited "_" words p →
                  fig_xticklabels fig !! k = Some (initials words)).
Proof.
  assert (Forall (λ r, well_delimited (prompt r)) example_table) as Hwd
    by by_evaluation.
  split_and!; [done|exact Hwd|].
  apply (points_at_technique_rank example_table); [done|exact Hwd].
Defined.

(** On the example: [few_shot] is at 0 and [zero_shot] at 1. *)
Example points_example :
  (λ fig, (fig_scatter fig ≫= points, fig_xticks fig, fig_xticklabels fig))
    <$> render example_table =
  Ok ([ (Some 0, 0.6%Q); (Some 1, 0.7%Q); (Some 1, 0.7%Q); (Some 1, 0.3%Q);
        (Some 1, 0.5%Q); (Some 1, 0.8%Q); (Some 0, 0.9%Q) ],
      [0; 1], ["FS"; "ZS"]).
Proof. vm_compute. reflexivity. Qed.

(** C9, as stated, fails on an identifier with a slash: the text before the
    first hyphen of [meta-llama/llama-3-8b] is [meta], but the legend says
    [Llama]. *)
Lemma legend_label_not_before_first_hyphen :
  before_first "-" "meta" "meta-llama/llama-3-8b" ∧
  (λ fig, le_label <$> fig_llm_legend fig) <$> render prefixed_model_table
    = Ok ["Llama"] ∧
  capitalize "meta" = "Meta" ∧
  "Llama" ≠ capitalize "meta".
Proof.
  split_and!.
  - split; [done|]. right. by exists "llama/llama-3-8b".
  - vm_compute. reflexivity.
  - reflexivity.
  - discriminate.
Qed.

(** C9, amended: the model legend has one entry per distinct model of the
    subset, in ascending order; its label is what precedes the first hyphen
    of the last slash-delimited component of the identifier, with the first
    character uppercased and the rest unchanged. The decision-point legend has
    one entry per distinct decision point, in ascending order, labelled with
    the name with every underscore replaced by a space. *)
Theorem legend_labels (table : list record) :
  table ≠ [] →
  Forall (λ r, well_delimited (prompt r)) table →
  ∃ fig rows models decisions,
    render table = Ok fig ∧
    top_df table = Some rows ∧
    ascending_listing models ((λ r : row, llm r) <$> rows) ∧
    ascending_listing decisions ((λ r : row, ssvc_decision_point r) <$> rows) ∧
    length (fig_llm_legend fig) = length models ∧
    length (fig_decision_legend fig) = length decisions ∧
    (∀ i m base hd,
       models !! i = Some m →
       last_component "/" base m → before_first "-" hd base →
       le_label <$> fig_llm_legend fig !! i = Some (capitalize hd)) ∧
    (∀ i c,
       decisions !! i = Some c →
       le_label <$> fig_decision_legend fig !! i = Some (replace "_" " " c)).
Proof.
  intros Hne Hwd. destruct (render_Ok table Hne Hwd) as (top & Hfig & _).
  exists (figure_of table top), (top_rows table),
         (sorted_llms table), (sorted_decisions table).
  split_and!.
  - done.
  - by apply top_df_Some.
  - apply sorted_llms_listing.
  - apply sorted_decisions_listing.
  - simpl. unfold llm_legend_of. by rewrite length_fmap.
  - simpl. unfold decision_legend_of. by rewrite length_fmap.
  - intros i m base hd Hi Hbase Hhd. simpl. unfold llm_legend_of.
    rewrite list_lookup_fmap, Hi. simpl.
    by rewrite (model_name_of_spec _ _ _ Hbase Hhd).
  - intros i c Hi. simpl. unfold decision_legend_of.
    by rewrite list_lookup_fmap, Hi.
Qed.

Lemma legend_labels_witness :
  example_table ≠ [] ∧
  Forall (λ r, well_delimited (prompt r)) example_table ∧
  ∃ fig rows models decisions,
    render example_table = Ok fig ∧
    top_df example_table = Some rows ∧
    ascending_listing models ((λ r : row, llm r) <$> rows) ∧
    ascending_listing decisions ((λ r : row, ssvc_decision_point r) <$> rows) ∧
    length (fig_llm_legend fig) = length models ∧
    length (fig_decision_legend fig) = length decisions ∧
    (∀ i m base hd,
       models !! i = Some m →
       last_component "/" base m → before_first "-" hd base →
       le_label <$> fig_llm_legend fig !! i = Some (capitalize hd)) ∧
    (∀ i c,
       decisions !! i = Some c →
       le_label <$> fig_decision_legend fig !! i = Some (replace "_" " " c)).
Proof.
  assert (Forall (λ r, well_delimited (prompt r)) example_table) as Hwd
    by by_evaluation.
  split_and!; [done|exact Hwd|].
  apply (legend_labels example_table); [done|exact Hwd].
Defined.

(** On the example. *)
Example legend_example :
  (λ fig, (le_label <$> fig_llm_legend fig,
           le_label <$> fig_decision_legend fig)) <$> render example_table =
  Ok (["Gemini"; "Llama"; "Mistral"; "Gpt"],
      ["Automatable"; "Exploitation"; "Technical Impact"]).
Proof. vm_compute. reflexivity. Qed.

(** * Further properties of the script *)

(** ** How a run can end *)

Lemma render_nil : render [] = Raise (KeyError "llm").
Proof. reflexivity. Qed.

Lemma render_ill_delimited table :
  ¬ Forall (λ r, well_delimited (prompt r)) table →
  render table = Raise IndexError.
Proof.
  intros Hn. apply not_Forall_Exists in Hn; [|intros r; apply _].
  apply Exists_exists in Hn as (r & Hr & Hwd). simpl in Hwd.
  assert (EmptyString ∈ split "_" (prompt r)) as Hempty.
  { destruct (decide (EmptyString ∈ split "_" (prompt r))) as [|Hne]; [done|].
    destruct Hwd. apply well_delimited_split, Forall_forall. by intros w Hw ->. }
  unfold render.
  by rewrite (prompt_abbrev_Raise table r _ Hr (delimited_split _ _) Hempty).
Qed.


(** X2: a run can complete only when the table is not empty, no technique
    name has an empty word and each of the four files could be written; it
    has then written the four files, in order. *)
Theorem completed_run (table : list record) (can_write : string → bool) :
  is_Ok (main table can_write).1 →
  table ≠ [] ∧
  Forall (λ r, well_delimited (prompt r)) table ∧
  Forall (λ fname, can_write fname = true) output_files ∧
  (main table can_write).2 = output_files.
Proof.
  rewrite main_closed_form. pose proof (render_Ok_iff table) as Hr.
  destruct (render table) as [fig|e]; [|by intros []].
  destruct Hr as [[Hne Hwd] _]; [by eexists|].
  destruct (list_find _ output_files) as [[n fname]|] eqn:Hfind;
    [by intros []|intros _].
  apply list_find_None in Hfind. split_and!; [done..| |done].
  eapply Forall_impl; [exact Hfind|]. intros f Hf.
  destruct (can_write f) eqn:E; [done|by destruct Hf].
Qed.

Lemma completed_run_witness :
  is_Ok (main example_table (λ _, true)).1 ∧
  example_table ≠ [] ∧
  Forall (λ r, well_delimited (prompt r)) example_table ∧
  Forall (λ fname, (λ _ : string, true) fname = true) output_files ∧
  (main example_table (λ _, true)).2 = output_files.
Proof.
  assert (is_Ok (main example_table (λ _, true)).1) as Hrun
    by (eexists; vm_compute; reflexivity).
  split; [exact Hrun|]. exact (completed_run example_table (λ _, true) Hrun).
Defined.

(** ** Shape of the labels *)

(** Case analysis on the eight bits of a character. *)
Ltac by_cases_on_char c :=
  destruct c as [[] [] [] [] [] [] [] []]; vm_compute; try done.

Lemma upper_not_lower c : is_lower (upper c) = false.
Proof. by_cases_on_char c. Qed.

Lemma upper_slash c : upper c = "/"%char → c = "/"%char.
Proof. by_cases_on_char c. Qed.

Lemma upper_hyphen c : upper c = "-"%char → c = "-"%char.
Proof. by_cases_on_char c. Qed.

Lemma upper_underscore c : upper c = "_"%char → c = "_"%char.
Proof. by_cases_on_char c. Qed.

Lemma contains_capitalize sep s :
  (∀ c, upper c = sep → c = sep) →
  contains sep s = false → contains sep (capitalize s) = false.
Proof.
  intros Hup. destruct s as [|c s]; simpl; [done|].
  case_decide; [done|]. intros Hs. rewrite decide_False; [done|]. auto.
Qed.

(** The pieces of a split contain no character that the whole lacks. *)
Lemma splitn_pieces_contain c sep n s :
  contains c s = false → Forall (λ w, contains c w = false) (splitn sep n s).
Proof.
  revert n. induction s as [|a s IH]; intros n; simpl.
  - by repeat constructor.
  - case_decide as Hac; [done|]. intros Hs. case_decide.
    + destruct n.
      * repeat constructor. simpl. by rewrite decide_False.
      * constructor; [done|]. by apply IH.
    + specialize (IH n Hs). destruct (splitn sep n s) as [|w ws].
      * repeat constructor. simpl. by rewrite decide_False.
      * inversion_clear IH. constructor; [|done]. simpl. by rewrite decide_False.
Qed.

Lemma splitn_head_free sep n s :
  contains sep (default EmptyString (head (splitn sep (S n) s))) = false.
Proof.
  induction s as [|a s IH]; simpl; [done|].
  case_decide; [done|]. destruct (splitn sep (S n) s) as [|w ws]; simpl in *.
  - by rewrite decide_False.
  - by rewrite decide_False.
Qed.

Lemma last_split_free sep s :
  contains sep (default EmptyString (last (split sep s))) = false.
Proof.
  pose proof (split_contains sep s) as Hall.
  destruct (last (split sep s)) as [w|] eqn:E; [|done]. simpl.
  rewrite Forall_forall in Hall. apply Hall.
  apply last_Some in E as [l' ->]. set_solver.
Qed.

(** X3: naming a model for the legend never fails, whatever the identifier,
    the empty one included: the test of line 122 guards the indexing that
    the abbreviator does unguarded. The label has no slash and no hyphen and
    does not start with a lowercase letter. *)
Theorem model_label_total (l : string) :
  ∃ label,
    model_label l = Ok label ∧
    contains "/" label = false ∧
    contains "-" label = false ∧
    (∀ c rest, label = String c rest → is_lower c = false).
Proof.
  exists (model_name_of l). split; [apply model_label_Ok|].
  unfold model_name_of.
  set (base := default EmptyString (last (split "/" l))).
  assert (contains "/" base = false) as Hbase by apply last_split_free.
  set (name := if contains "-" base
               then default EmptyString (head (splitn "-" 1 base)) else base).
  assert (contains "/" name = false ∧ contains "-" name = false) as [Hs Hh].
  { unfold name. destruct (contains "-" base) eqn:Hc; [|done]. split.
    - pose proof (splitn_pieces_contain "/" "-" 1 base Hbase) as Hall.
      destruct (splitn "-" 1 base) as [|w ws]; [done|]. by inversion_clear Hall.
    - apply splitn_head_free. }
  split_and!.
  - apply contains_capitalize; [apply upper_slash|done].
  - apply contains_capitalize; [apply upper_hyphen|done].
  - intros c rest Hlabel. destruct name as [|c' name']; [done|].
    simpl in Hlabel. injection Hlabel as <- _. apply upper_not_lower.
Qed.

Lemma length_split sep s : length (split sep s) = S (count_char sep s).
Proof.
  induction s as [|c s IH]; simpl; [done|].
  case_decide; simpl; [by rewrite IH|].
  pose proof (split_not_nil sep s). destruct (split sep s); [done|].
  simpl in *. lia.
Qed.

Lemma initials_shape words :
  Forall (λ w, w ≠ EmptyString) words →
  Forall (λ w, contains "_" w = false) words →
  String.length (initials words) = length words ∧
  contains "_" (initials words) = false ∧
  Forall (λ c, is_lower c = false) (list_ascii_of_string (initials words)).
Proof.
  induction 1 as [|w ws Hw _ IH]; intros Hfree; [done|].
  inversion_clear Hfree as [|?? Hwf Hwsf]. destruct (IH Hwsf) as (Hlen & Hc & Hl).
  destruct w as [|c w]; [done|]. simpl. split_and!.
  - by rewrite Hlen.
  - rewrite decide_False; [done|]. intros Hu%upper_underscore. subst c.
    simpl in Hwf. discriminate Hwf.
  - constructor; [apply upper_not_lower|done].
Qed.

(** X4: the abbreviation of a technique name of ASCII characters has one
    character per underscore-delimited word of the name, that is one more
    than the name has underscores; it holds no underscore and no ASCII
    lowercase letter. *)
Theorem abbreviation_shape (p a : string) :
  Forall (λ c, is_ascii c = true) (list_ascii_of_string p) →
  abbreviate p = Ok a →
  String.length a = S (count_char "_" p) ∧
  contains "_" a = false ∧
  Forall (λ c, is_lower c = false) (list_ascii_of_string a).
Proof.
  intros _ [Hwd ->]%abbreviate_Ok_inv.
  apply well_delimited_split in Hwd.
  destruct (initials_shape _ Hwd (split_contains "_" p)) as (Hlen & Hc & Hl).
  split_and!; [|done..]. by rewrite Hlen, length_split.
Qed.

Lemma abbreviation_shape_witness :
  Forall (λ c, is_ascii c = true) (list_ascii_of_string "chain_of_thought") ∧
  abbreviate "chain_of_thought" = Ok "COT" ∧
  String.length "COT" = S (count_char "_" "chain_of_thought") ∧
  contains "_" "COT" = false ∧
  Forall (λ c, is_lower c = false) (list_ascii_of_string "COT").
Proof.
  assert (Forall (λ c, is_ascii c = true)
                 (list_ascii_of_string "chain_of_thought")) as Hascii
    by (repeat constructor).
  assert (abbreviate "chain_of_thought" = Ok "COT") as H by reflexivity.
  split_and!; [exact Hascii|exact H|..];
    apply (abbreviation_shape "chain_of_thought" "COT" Hascii H).
Defined.

(** ** The x positions as ranks *)

Lemma StronglySorted_lookup_lt {A} (R : relation A) l i j x y :
  StronglySorted R l → l !! i = Some x → l !! j = Some y → (i < j)%nat → R x y.
Proof.
  intros Hs. revert i j. induction Hs as [|z l Hs IH Hz]; intros i j Hi Hj Hlt.
  - done.
  - destruct j as [|j]; [lia|]. destruct i as [|i]; simpl in *.
    + simplify_eq. rewrite Forall_forall in Hz. apply Hz.
      by eapply list_elem_of_lookup_2.
    + eapply IH; [done..|lia].
Qed.

(** X5: the column [prompt_numeric] is never NaN: every row of [df] carries
    a number below the number of distinct techniques. Two rows get the same
    number exactly when they have the same technique, and a smaller number
    exactly when their technique comes first in string order; every number
    below the number of techniques is taken by some row. *)
Theorem prompt_numeric_orders_techniques (table : list record) (r1 r2 : row) :
  r1 ∈ df table → r2 ∈ df table →
  (∃ k1 k2,
     prompt_numeric r1 = Some k1 ∧ prompt_numeric r2 = Some k2 ∧
     (k1 < length (prompts table))%nat ∧
     (k1 = k2 ↔ prompt r1 = prompt r2) ∧
     ((k1 < k2)%nat ↔ strict String.le (prompt r1) (prompt r2))) ∧
  (∀ k, (k < length (prompts table))%nat →
        ∃ r : row, r ∈ df table ∧ prompt_numeric r = Some k).
Proof.
  intros Hr1 Hr2.
  destruct (sorted_prompts_listing table) as [Hsorted Hmem].
  pose proof (StronglySorted_strict_NoDup _ _ Hsorted) as Hnd.
  split.
  - destruct (df_prompt_numeric table r1 Hr1) as (k1 & Hk1 & Hp1).
    destruct (df_prompt_numeric table r2 Hr2) as (k2 & Hk2 & Hp2).
    exists k1, k2. split_and!; [done..| | |].
    + apply lookup_lt_Some in Hp1. unfold sorted in Hp1.
      by rewrite length_stable_sort in Hp1.
    + split; [intros ->; congruence|].
      intros Heq. rewrite Heq in Hp1. by eapply NoDup_lookup.
    + split.
      * intros Hlt. by eapply StronglySorted_lookup_lt.
      * intros [Hle Hnle]. destruct (decide (k1 < k2)%nat) as [|Hge]; [done|].
        destruct (decide (k1 = k2)) as [->|Hne].
        { destruct Hnle. assert (prompt r1 = prompt r2) as <- by congruence.
          done. }
        destruct Hnle.
        apply (StronglySorted_lookup_lt _ _ k2 k1 _ _ Hsorted Hp2 Hp1). lia.
  - intros k Hk.
    assert (k < length (sorted (prompts table)))%nat as Hk'
      by (unfold sorted; by rewrite length_stable_sort).
    apply lookup_lt_is_Some in Hk' as [p Hp].
    assert (p ∈ prompt <$> table) as (rec & -> & Hrec)%list_elem_of_fmap
      by (apply Hmem; by eapply list_elem_of_lookup_2).
    exists (mkRow rec (prompt_mapping table !! prompt rec)). split.
    + unfold df. by apply list_elem_of_fmap_2 with
        (f := λ r, mkRow r (prompt_mapping table !! prompt r)).
    + simpl. by apply prompt_mapping_lookup.
Qed.

Lemma prompt_numeric_orders_techniques_witness :
  let r1 := mkRow (mkRecord "gemini-pro" "few_shot" "Automatable" 0.6%Q) (Some 0%nat) in
  let r2 := mkRow (mkRecord "mistral-7b" "zero_shot" "Automatable" 0.3%Q) (Some 1%nat) in
  r1 ∈ df example_table ∧ r2 ∈ df example_table ∧
  (∃ k1 k2,
     prompt_numeric r1 = Some k1 ∧ prompt_numeric r2 = Some k2 ∧
     (k1 < length (prompts example_table))%nat ∧
     (k1 = k2 ↔ prompt r1 = prompt r2) ∧
     ((k1 < k2)%nat ↔ strict String.le (prompt r1) (prompt r2))) ∧
  (∀ k, (k < length (prompts example_table))%nat →
        ∃ r : row, r ∈ df example_table ∧ prompt_numeric r = Some k).
Proof.
  intros r1 r2.
  assert (r1 ∈ df example_table) as H1
    by (apply list_elem_of_In; vm_compute; tauto).
  assert (r2 ∈ df example_table) as H2
    by (apply list_elem_of_In; vm_compute; tauto).
  split_and!; [exact H1|exact H2|..];
    apply (prompt_numeric_orders_techniques example_table r1 r2 H1 H2).
Defined.

(** ** What the top-5 filter keeps *)

Lemma bind_submseteq_ext {A B} (f g : A → list B) (l : list A) :
  (∀ x, x ∈ l → f x ⊆+ g x) → l ≫= f ⊆+ l ≫= g.
Proof.
  induction l as [|x l IH]; intros Hfg; [done|].
  rewrite !bind_cons. apply submseteq_app; [apply Hfg; left|].
  apply IH. intros y Hy. apply Hfg. by right.
Qed.

Lemma length_bind {A B} (f : A → list B) (l : list A) :
  length (l ≫= f) = sum_list ((λ x, length (f x)) <$> l).
Proof.
  induction l as [|x l IH]; [done|].
  by rewrite bind_cons, length_app, fmap_cons, IH.
Qed.

Lemma nlargest_submseteq n rows : nlargest n rows ⊆+ rows.
Proof.
  unfold nlargest. transitivity (stable_sort score_ge rows).
  - apply submseteq_take.
  - by rewrite stable_sort_Permutation.
Qed.

Lemma nlargest_sorted n rows : StronglySorted score_ge (nlargest n rows).
Proof.
  unfold nlargest.
  apply (StronglySorted_app_1_l score_ge _ (drop n (stable_sort score_ge rows))).
  rewrite take_drop. apply StronglySorted_stable_sort; apply _.
Qed.

Lemma df_covered_by_prompts table (r : row) :
  r ∈ df table → prompt r ∈ prompts table.
Proof.
  intros Hr. apply elem_of_prompts. exists (cells r). split; [|done].
  rewrite <- (cells_df table). by apply list_elem_of_fmap_2.
Qed.

Lemma top_rows_submseteq table : top_rows table ⊆+ df table.
Proof.
  unfold top_rows.
  transitivity (prompts table ≫= λ p, filter (λ r : row, prompt r = p) (df table)).
  - apply bind_submseteq_ext. intros p _. apply nlargest_submseteq.
  - rewrite bind_filter_key_Permutation;
      [done|apply NoDup_unique|apply df_covered_by_prompts].
Qed.

Lemma length_top_block table p :
  length (filter (λ r : row, prompt r = p) (top_rows table)) =
  5 `min` length (filter (λ r : record, prompt r = p) table).
Proof.
  rewrite filter_top_rows.
  destruct (nlargest_spec 5 (filter (λ r : row, prompt r = p) (df table)))
    as (-> & _). by rewrite <- filter_df, length_fmap.
Qed.

(** X6: the filter invents nothing and loses no technique. The records of
    the subset are records of the table, none more often than the table has
    it, and a technique has a row in the subset exactly when it has one in
    the table: every tick of the x axis has a point above it. *)
Theorem subset_covers_techniques (table : list record) :
  table ≠ [] →
  ∃ rows, top_df table = Some rows ∧
    cells <$> rows ⊆+ table ∧
    ∀ p, p ∈ (λ r : row, prompt r) <$> rows ↔ p ∈ prompt <$> table.
Proof.
  intros Hne. exists (top_rows table). split_and!.
  - by apply top_df_Some.
  - rewrite <- (cells_df table) at 2. apply fmap_submseteq, top_rows_submseteq.
  - intros p. split.
    + intros (r & -> & Hr)%list_elem_of_fmap.
      apply elem_of_top_rows in Hr. rewrite <- (cells_df table).
      rewrite <- list_fmap_compose. by apply list_elem_of_fmap_2 with (f := prompt ∘ cells).
    + intros (rec & -> & Hrec)%list_elem_of_fmap.
      pose proof (length_top_block table (prompt rec)) as Hlen.
      assert (0 < length (filter (λ r : record, prompt r = prompt rec) table))%nat.
      { assert (rec ∈ filter (λ r : record, prompt r = prompt rec) table) as Hin
          by (by apply list_elem_of_filter).
        destruct (filter _ table); [by apply elem_of_nil in Hin|simpl; lia]. }
      destruct (filter (λ r : row, prompt r = prompt rec) (top_rows table))
        as [|r rs] eqn:E; [change (length (@nil row)) with 0%nat in Hlen; lia|].
      assert (r ∈ filter (λ r : row, prompt r = prompt rec) (top_rows table))
        as [Hp Hr]%list_elem_of_filter by (rewrite E; left).
      rewrite <- Hp. by apply list_elem_of_fmap_2 with (f := λ r : row, prompt r).
Qed.

Lemma subset_covers_techniques_witness :
  example_table ≠ [] ∧
  ∃ rows, top_df example_table = Some rows ∧
    cells <$> rows ⊆+ example_table ∧
    ∀ p, p ∈ (λ r : row, prompt r) <$> rows ↔ p ∈ prompt <$> example_table.
Proof.
  split; [done|]. apply (subset_covers_techniques example_table). done.
Defined.

(** X7: the subset has min(5, n) rows for each distinct technique with n
    records: at least one and at most five rows per technique, and never
    more rows than the table. *)
Theorem subset_size (table : list record) :
  table ≠ [] →
  ∃ rows, top_df table = Some rows ∧
    length rows =
      sum_list ((λ p, 5 `min` length (filter (λ r : record, prompt r = p) table))
                  <$> prompts table) ∧
    (length (prompts table) ≤ length rows)%nat ∧
    (length rows ≤ 5 * length (prompts table))%nat ∧
    (length rows ≤ length table)%nat.
Proof.
  intros Hne. exists (top_rows table).
  assert (length (top_rows table) =
          sum_list ((λ p, 5 `min` length (filter (λ r : record, prompt r = p) table))
                      <$> prompts table)) as Hsum.
  { unfold top_rows. rewrite length_bind. f_equal.
    apply list_fmap_ext. intros _ p _.
    destruct (nlargest_spec 5 (filter (λ r : row, prompt r = p) (df table)))
      as (-> & _). by rewrite <- filter_df, length_fmap. }
  split_and!; [by apply top_df_Some|done|..].
  - rewrite Hsum.
    assert (∀ ps : list string, (∀ p, p ∈ ps → p ∈ prompts table) →
      (length ps ≤ sum_list ((λ p, 5 `min` length
         (filter (λ r : record, prompt r = p) table)) <$> ps))%nat) as Hlow.
    { induction ps as [|p ps IH]; intros Hps; [done|].
      rewrite fmap_cons. cbn [sum_list_with id length].
      assert (p ∈ prompts table) as (rec & Hrec & <-)%elem_of_prompts
        by (apply Hps; left).
      assert (rec ∈ filter (λ r : record, prompt r = prompt rec) table) as Hin
        by (by apply list_elem_of_filter).
      specialize (IH (λ q Hq, Hps q (list_elem_of_further _ _ _ Hq))).
      destruct (filter (λ r : record, prompt r = prompt rec) table);
        [by apply elem_of_nil in Hin|cbn [length]; lia]. }
    by apply Hlow.
  - rewrite Hsum. generalize (prompts table). intros ps.
    induction ps as [|p ps IH]; [done|].
    rewrite fmap_cons. cbn [sum_list_with id length]. lia.
  - rewrite <- (length_fmap (λ r, mkRow r (prompt_mapping table !! prompt r)) table).
    apply submseteq_length, top_rows_submseteq.
Qed.

Lemma subset_size_witness :
  example_table ≠ [] ∧
  ∃ rows, top_df example_table = Some rows ∧
    length rows =
      sum_list ((λ p, 5 `min` length
                   (filter (λ r : record, prompt r = p) example_table))
                  <$> prompts example_table) ∧
    (length (prompts example_table) ≤ length rows)%nat ∧
    (length rows ≤ 5 * length (prompts example_table))%nat ∧
    (length rows ≤ length example_table)%nat.
Proof.
  split; [done|]. apply (subset_size example_table). done.
Defined.

(** X8: when no technique has more than five records the filter drops
    nothing: the subset is the whole table, reordered. *)
Theorem small_table_kept_whole (table : list record) :
  table ≠ [] →
  (∀ p, length (filter (λ r : record, prompt r = p) table) ≤ 5)%nat →
  ∃ rows, top_df table = Some rows ∧ cells <$> rows ≡ₚ table.
Proof.
  intros Hne Hsmall. exists (top_rows table). split; [by apply top_df_Some|].
  rewrite <- (cells_df table) at 2. apply fmap_Permutation.
  apply submseteq_length_Permutation; [apply top_rows_submseteq|].
  rewrite <- (bind_filter_key_Permutation (λ r : row, prompt r)
                (prompts table) (df table))
    by (apply NoDup_unique || apply df_covered_by_prompts).
  unfold top_rows. rewrite !length_bind.
  apply Nat.eq_le_incl. f_equal. apply list_fmap_ext. intros _ p _.
  unfold nlargest. rewrite take_ge, length_stable_sort; [done|].
  rewrite length_stable_sort, <- (length_fmap cells), filter_df. apply Hsmall.
Qed.

Lemma small_table_kept_whole_witness :
  colliding_table ≠ [] ∧
  (∀ p, length (filter (λ r : record, prompt r = p) colliding_table) ≤ 5)%nat ∧
  ∃ rows, top_df colliding_table = Some rows ∧
          cells <$> rows ≡ₚ colliding_table.
Proof.
  assert (∀ p, length (filter (λ r : record, prompt r = p)
                         colliding_table) ≤ 5)%nat as Hsmall.
  { intros p. etransitivity; [apply length_filter|]. simpl. lia. }
  split_and!; [done|exact Hsmall|].
  apply (small_table_kept_whole colliding_table); [done|exact Hsmall].
Defined.

Lemma StronglySorted_mono {A} (R1 R2 : relation A) l :
  (∀ x y, R1 x y → R2 x y) → StronglySorted R1 l → StronglySorted R2 l.
Proof.
  intros HR. induction 1 as [|x l Hl IH Hx]; constructor; [done|].
  eapply Forall_impl; [exact Hx|]. intros y. apply HR.
Qed.

(** X9: the subset is laid out technique by technique, the techniques in the
    order in which they first appear in the table, and the rows of each
    technique by descending score. *)
Theorem subset_layout (table : list record) :
  table ≠ [] →
  ∃ rows, top_df table = Some rows ∧
    rows = unique (prompt <$> table) ≫=
             (λ p, filter (λ r : row, prompt r = p) rows) ∧
    ∀ p, StronglySorted
           (λ a b : row, (f1_harmonic_mean b <= f1_harmonic_mean a)%Q)
           (filter (λ r : row, prompt r = p) rows).
Proof.
  intros Hne. exists (top_rows table). split_and!.
  - by apply top_df_Some.
  - unfold top_rows at 1. fold (prompts table).
    apply Forall_bind_ext, Forall_forall. intros p _.
    by rewrite filter_top_rows.
  - intros p. rewrite filter_top_rows.
    eapply StronglySorted_mono; [|apply nlargest_sorted].
    intros a b. apply score_ge_Qle.
Qed.

Lemma subset_layout_witness :
  example_table ≠ [] ∧
  ∃ rows, top_df example_table = Some rows ∧
    rows = unique (prompt <$> example_table) ≫=
             (λ p, filter (λ r : row, prompt r = p) rows) ∧
    ∀ p, StronglySorted
           (λ a b : row, (f1_harmonic_mean b <= f1_harmonic_mean a)%Q)
           (filter (λ r : row, prompt r = p) rows).
Proof.
  split; [done|]. apply (subset_layout example_table). done.
Defined.

(** X10: the filter never drops the best record of a technique, so the
    score that line 160 takes as the [max] of the subset is the highest
    score of the whole table. *)
Theorem highest_score_survives_filter (table : list record) :
  table ≠ [] →
  ∃ rows top,
    top_df table = Some rows ∧
    py_max ((λ r : row, f1_harmonic_mean r) <$> rows) = Ok top ∧
    top ∈ f1_harmonic_mean <$> table ∧
    ∀ s, s ∈ f1_harmonic_mean <$> table → (s <= top)%Q.
Proof.
  intros Hne.
  destruct (py_max_spec ((λ r : row, f1_harmonic_mean r) <$> top_rows table))
    as (top & Htop & Hin & Hmax).
  { intros Hnil%fmap_nil_inv. by apply top_rows_not_empty in Hnil. }
  exists (top_rows table), top. split_and!; [by apply top_df_Some|done| |].
  - apply list_elem_of_fmap in Hin as (r & -> & Hr).
    apply elem_of_top_rows in Hr. rewrite <- (cells_df table).
    rewrite <- list_fmap_compose.
    by apply list_elem_of_fmap_2 with (f := f1_harmonic_mean ∘ cells).
  - intros s (rec & -> & Hrec)%list_elem_of_fmap.
    set (all := filter (λ r : row, prompt r = prompt rec) (df table)).
    set (r0 := mkRow rec (prompt_mapping table !! prompt rec)).
    assert (r0 ∈ all) as Hr0.
    { apply list_elem_of_filter. split; [done|].
      by apply list_elem_of_fmap_2 with
        (f := λ r, mkRow r (prompt_mapping table !! prompt r)). }
    assert (∀ k : row, k ∈ nlargest 5 all → (f1_harmonic_mean k <= top)%Q) as Hkept.
    { intros k Hk. apply Hmax. unfold all in Hk. rewrite <- filter_top_rows in Hk.
      apply list_elem_of_filter in Hk as [_ Hk].
      by apply list_elem_of_fmap_2 with (f := λ r : row, f1_harmonic_mean r). }
    destruct (nlargest_spec 5 all) as (Hlen & Hperm & Hord).
    rewrite Hperm in Hr0. apply elem_of_app in Hr0 as [Hr0|Hr0].
    + by apply (Hkept r0).
    + destruct (nlargest 5 all) as [|k ks] eqn:E.
      * destruct all; [by apply elem_of_nil in Hr0|done].
      * apply Qle_trans with (f1_harmonic_mean k).
        -- apply (Hord k r0); [left|done].
        -- apply Hkept. left.
Qed.

Lemma highest_score_survives_filter_witness :
  example_table ≠ [] ∧
  ∃ rows top,
    top_df example_table = Some rows ∧
    py_max ((λ r : row, f1_harmonic_mean r) <$> rows) = Ok top ∧
    top ∈ f1_harmonic_mean <$> example_table ∧
    ∀ s, s ∈ f1_harmonic_mean <$> example_table → (s <= top)%Q.
Proof.
  split; [done|]. apply (highest_score_survives_filter example_table). done.
Defined.

(** ** Independence of the order of the rows *)

Lemma sorted_prompts_Permutation t1 t2 :
  t1 ≡ₚ t2 → sorted (prompts t1) = sorted (prompts t2).
Proof.
  intros Hperm.
  apply (ascending_listing_unique _ _ (prompt <$> t1));
    [apply sorted_prompts_listing|].
  destruct (sorted_prompts_listing t2) as [Hs Hm]. split; [done|].
  intros x. by rewrite Hm, Hperm.
Qed.

Lemma prompt_mapping_Permutation t1 t2 :
  t1 ≡ₚ t2 → prompt_mapping t1 = prompt_mapping t2.
Proof.
  intros Hperm. unfold prompt_mapping.
  by rewrite (sorted_prompts_Permutation _ _ Hperm).
Qed.

Lemma length_prompts_Permutation t1 t2 :
  t1 ≡ₚ t2 → length (prompts t1) = length (prompts t2).
Proof.
  intros Hperm.
  rewrite <- (length_stable_sort String.le (prompts t1)).
  rewrite <- (length_stable_sort String.le (prompts t2)).
  fold (sorted (prompts t1)) (sorted (prompts t2)).
  by rewrite (sorted_prompts_Permutation _ _ Hperm).
Qed.

(** X13: the x axis does not depend on the order of the rows of the file:
    two tables with the same rows in different orders give every technique
    the same position, and the same ticks and tick labels (or the same
    exception). *)
Theorem x_axis_independent_of_row_order (t1 t2 : list record) :
  t1 ≡ₚ t2 →
  prompt_mapping t1 = prompt_mapping t2 ∧
  (λ fig, (fig_xticks fig, fig_xticklabels fig)) <$> render t1 =
  (λ fig, (fig_xticks fig, fig_xticklabels fig)) <$> render t2.
Proof.
  intros Hperm. split; [by apply prompt_mapping_Permutation|].
  destruct (decide (Forall (λ r, well_delimited (prompt r)) t1)) as [Hwd|Hn].
  - destruct t1 as [|r t1].
    + apply Permutation_nil_l in Hperm as <-. done.
    + assert (t2 ≠ []) as Hne2.
      { intros ->. by apply Permutation_nil_r in Hperm. }
      assert (Forall (λ r, well_delimited (prompt r)) t2) as Hwd2
        by (by rewrite <- Hperm).
      destruct (render_Ok (r :: t1)) as (top1 & -> & _); [done..|].
      destruct (render_Ok t2) as (top2 & -> & _); [done..|].
      unfold figure_of. cbn [fmap result_fmap fig_xticks fig_xticklabels].
      do 2 f_equal.
      * by rewrite (length_prompts_Permutation _ _ Hperm).
      * by rewrite (sorted_prompts_Permutation _ _ Hperm).
  - rewrite (render_ill_delimited _ Hn), render_ill_delimited; [done|].
    by rewrite <- Hperm.
Qed.

Lemma x_axis_independent_of_row_order_witness :
  reverse example_table ≡ₚ example_table ∧
  prompt_mapping (reverse example_table) = prompt_mapping example_table ∧
  (λ fig, (fig_xticks fig, fig_xticklabels fig))
    <$> render (reverse example_table) =
  (λ fig, (fig_xticks fig, fig_xticklabels fig)) <$> render example_table.
Proof.
  split; [apply reverse_Permutation|].
  apply (x_axis_independent_of_row_order (reverse example_table) example_table).
  apply reverse_Permutation.
Defined.

Lemma stable_sort_Permutation_eq {A} (R : relation A)
    `{∀ x y, Decision (R x y)} `{!Total R} `{!Transitive R} (l1 l2 : list A) :
  l1 ≡ₚ l2 →
  (∀ a b, a ∈ l1 → b ∈ l1 → R a b → R b a → a = b) →
  stable_sort R l1 = stable_sort R l2.
Proof.
  intros Hperm Hanti. apply (StronglySorted_unique_strong R).
  - intros a b Ha%elem_of_stable_sort Hb%elem_of_stable_sort.
    rewrite <- Hperm in Hb. by apply Hanti.
  - by apply StronglySorted_stable_sort.
  - by apply StronglySorted_stable_sort.
  - by rewrite !stable_sort_Permutation.
Qed.

Lemma df_Permutation t1 t2 : t1 ≡ₚ t2 → df t1 ≡ₚ df t2.
Proof.
  intros Hperm. unfold df.
  rewrite (prompt_mapping_Permutation _ _ Hperm). by rewrite Hperm.
Qed.

Lemma prompts_Permutation t1 t2 : t1 ≡ₚ t2 → prompts t1 ≡ₚ prompts t2.
Proof.
  intros Hperm. apply NoDup_Permutation; [apply NoDup_unique..|].
  intros p. unfold prompts. by rewrite !elem_of_unique, Hperm.
Qed.

(** X14: when no two different records of a technique have the same score,
    the subset does not depend on the order of the rows of the file: tables
    with the same rows in different orders keep the same rows. *)
Theorem subset_independent_of_row_order (t1 t2 : list record) :
  t1 ≠ [] → t1 ≡ₚ t2 → no_ties t1 →
  ∃ rows1 rows2,
    top_df t1 = Some rows1 ∧ top_df t2 = Some rows2 ∧ rows1 ≡ₚ rows2.
Proof.
  intros Hne Hperm Hties.
  assert (t2 ≠ []) as Hne2.
  { intros ->. by apply Permutation_nil_r in Hperm. }
  exists (top_rows t1), (top_rows t2).
  split_and!; [by apply top_df_Some..|].
  unfold top_rows. rewrite (prompts_Permutation _ _ Hperm).
  apply bind_Permutation_ext. intros p _.
  unfold nlargest. rewrite (stable_sort_Permutation_eq score_ge
    (filter (λ r : row, prompt r = p) (df t1))
    (filter (λ r : row, prompt r = p) (df t2))); [done| |].
  - by rewrite (df_Permutation _ _ Hperm).
  - intros a b [Hpa Ha]%list_elem_of_filter [Hpb Hb]%list_elem_of_filter Hab Hba.
    unfold df in Ha, Hb.
    apply list_elem_of_fmap in Ha as (ra & -> & Hra).
    apply list_elem_of_fmap in Hb as (rb & -> & Hrb).
    simpl in *. apply score_ge_Qle in Hab, Hba. simpl in Hab, Hba.
    assert (ra = rb) as ->; [|done].
    apply Hties; [done..|congruence|by apply Qle_antisym].
Qed.

Lemma subset_independent_of_row_order_witness :
  ranked_table ≠ [] ∧
  ranked_table ≡ₚ reverse ranked_table ∧
  no_ties ranked_table ∧
  ∃ rows1 rows2,
    top_df ranked_table = Some rows1 ∧
    top_df (reverse ranked_table) = Some rows2 ∧ rows1 ≡ₚ rows2.
Proof.
  assert (ranked_table ≡ₚ reverse ranked_table) as Hperm
    by (symmetry; apply reverse_Permutation).
  assert (no_ties ranked_table) as Hties.
  { intros r1 r2 H1 H2 Hp Hs. apply list_elem_of_In in H1, H2.
    simpl in H1, H2.
    repeat (destruct H1 as [<-|H1]); [..|destruct H1];
      repeat (destruct H2 as [<-|H2]); try (destruct H2);
      reflexivity || discriminate Hp || discriminate Hs. }
  split_and!; [done|exact Hperm|exact Hties|].
  apply (subset_independent_of_row_order ranked_table
           (reverse ranked_table)); [done|exact Hperm|exact Hties].
Defined.

(** On that table the filter does cut, and the two orders of the file give
    the same seven rows in different orders. *)
Example subset_of_ranked_table :
  (λ r : row, f1_harmonic_mean r) <$> default [] (top_df ranked_table)
    = [0.9; 0.8; 0.7; 0.6; 0.5; 0.8; 0.4]%Q ∧
  (λ r : row, f1_harmonic_mean r) <$> default [] (top_df (reverse ranked_table))
    = [0.8; 0.4; 0.9; 0.8; 0.7; 0.6; 0.5]%Q.
Proof. split; vm_compute; reflexivity. Qed.

(** With a tie at the fifth place the order of the rows does matter: of two
    records with the same score the earlier one is kept. *)
Example subset_depends_on_order_at_ties :
  let tied := [ mkRecord "a" "p" "d" 0.9%Q; mkRecord "b" "p" "d" 0.9%Q;
                mkRecord "c" "p" "d" 0.9%Q; mkRecord "d" "p" "d" 0.9%Q;
                mkRecord "e" "p" "d" 0.5%Q; mkRecord "f" "p" "d" 0.5%Q ] in
  (λ r : row, llm r) <$> default [] (top_df tied) = ["a"; "b"; "c"; "d"; "e"] ∧
  (λ r : row, llm r) <$> default [] (top_df (reverse tied))
    = ["d"; "c"; "b"; "a"; "f"].
Proof. split; vm_compute; reflexivity. Qed.

(** ** When the encodings tell models and decision points apart *)

Lemma cyclic_dict_injective base keys k1 k2 :
  NoDup base → NoDup keys → (length keys ≤ length base)%nat →
  k1 ∈ keys → k2 ∈ keys →
  cyclic_dict base keys !! k1 = cyclic_dict base keys !! k2 → k1 = k2.
Proof.
  intros Hb Hk Hlen (i1 & H1)%list_elem_of_lookup (i2 & H2)%list_elem_of_lookup.
  assert (0 < length base)%nat as Hpos
    by (apply lookup_lt_Some in H1; lia).
  rewrite (cyclic_lookup base keys Hpos Hk i1 k1 H1).
  rewrite (cyclic_lookup base keys Hpos Hk i2 k2 H2).
  pose proof (lookup_lt_Some _ _ _ H1). pose proof (lookup_lt_Some _ _ _ H2).
  rewrite !Nat.mod_small by lia. intros Heq.
  assert (is_Some (base !! i1)) as [x Hx] by (apply lookup_lt_is_Some; lia).
  assert (i1 = i2) as -> by (apply (NoDup_lookup base i1 i2 x Hb Hx); congruence).
  congruence.
Qed.

Lemma cyclic_dict_injective_iff base keys :
  NoDup base → (0 < length base)%nat → NoDup keys →
  (length keys ≤ length base)%nat ↔
  ∀ k1 k2, k1 ∈ keys → k2 ∈ keys →
           cyclic_dict base keys !! k1 = cyclic_dict base keys !! k2 → k1 = k2.
Proof.
  intros Hb Hpos Hk. split.
  - intros Hlen k1 k2. by apply cyclic_dict_injective.
  - intros Hinj. destruct (decide (length keys ≤ length base)%nat)
      as [|Hmany]; [done|]. exfalso.
    assert (is_Some (keys !! 0%nat)) as [k0 H0]
      by (apply lookup_lt_is_Some; lia).
    assert (is_Some (keys !! length base)) as [kn Hn]
      by (apply lookup_lt_is_Some; lia).
    assert (k0 = kn) as Heq.
    { apply Hinj; [by eapply list_elem_of_lookup_2..|].
      rewrite (cyclic_lookup base keys Hpos Hk 0 k0 H0).
      rewrite (cyclic_lookup base keys Hpos Hk (length base) kn Hn).
      by rewrite Nat.Div0.mod_same, Nat.Div0.mod_0_l. }
    subst kn. pose proof (NoDup_lookup _ _ _ _ Hk H0 Hn). lia.
Qed.

(** X16: no two models of the subset share a marker exactly when the subset
    has at most 12 models, and no two decision points share a colour exactly
    when it has at most 10 decision points. *)
Theorem encodings_tell_apart (table : list record) :
  table ≠ [] →
  ∃ rows lm dc,
    top_df table = Some rows ∧
    llm_markers table = Ok lm ∧
    decision_colors table = Ok dc ∧
    ((size (models_of rows) ≤ 12)%nat ↔
     ∀ m1 m2, m1 ∈ models_of rows → m2 ∈ models_of rows →
              lm !! m1 = lm !! m2 → m1 = m2) ∧
    ((size (decisions_of rows) ≤ 10)%nat ↔
     ∀ c1 c2, c1 ∈ decisions_of rows → c2 ∈ decisions_of rows →
              dc !! c1 = dc !! c2 → c1 = c2).
Proof.
  intros Hne. exists (top_rows table), (marker_dict table), (color_dict table).
  pose proof (sorted_llms_listing table) as Hl.
  pose proof (sorted_decisions_listing table) as Hd.
  pose proof (ascending_listing_NoDup _ _ Hl) as Hndl.
  pose proof (ascending_listing_NoDup _ _ Hd) as Hndd.
  split_and!.
  - by apply top_df_Some.
  - by apply llm_markers_Ok.
  - by apply decision_colors_Ok.
  - unfold models_of at 1. rewrite (listing_size _ _ Hl).
    change 12%nat with (length markers). unfold marker_dict.
    rewrite (cyclic_dict_injective_iff markers (sorted_llms table))
      by (apply markers_NoDup || done || (simpl; lia)).
    unfold models_of. setoid_rewrite elem_of_list_to_set.
    destruct Hl as [_ Hl]. by setoid_rewrite Hl.
  - unfold decisions_of at 1. rewrite (listing_size _ _ Hd).
    change 10%nat with (length colorblind). unfold color_dict.
    rewrite (cyclic_dict_injective_iff colorblind (sorted_decisions table))
      by (apply colorblind_NoDup || done || (simpl; lia)).
    unfold decisions_of. setoid_rewrite elem_of_list_to_set.
    destruct Hd as [_ Hd]. by setoid_rewrite Hd.
Qed.

Lemma encodings_tell_apart_witness :
  example_table ≠ [] ∧
  ∃ rows lm dc,
    top_df example_table = Some rows ∧
    llm_markers example_table = Ok lm ∧
    decision_colors example_table = Ok dc ∧
    ((size (models_of rows) ≤ 12)%nat ↔
     ∀ m1 m2, m1 ∈ models_of rows → m2 ∈ models_of rows →
              lm !! m1 = lm !! m2 → m1 = m2) ∧
    ((size (decisions_of rows) ≤ 10)%nat ↔
     ∀ c1 c2, c1 ∈ decisions_of rows → c2 ∈ decisions_of rows →
              dc !! c1 = dc !! c2 → c1 = c2).
Proof.
  split; [done|]. apply (encodings_tell_apart example_table). done.
Defined.

(** ** Series and legend handles *)

Lemma Forall2_bind_same {A B C} (f : A → list B) (g : A → list C)
    (P : B → C → Prop) (l : list A) :
  (∀ x, x ∈ l → Forall2 P (f x) (g x)) → Forall2 P (l ≫= f) (l ≫= g).
Proof.
  intros Hfg. apply Forall2_bind, Forall_Forall2_diag, Forall_forall. done.
Qed.

(** X11: the two legends show the encodings the points are drawn with. The
    model legend has, for each model of the subset in ascending order, a
    gray handle with that model's entry of [llm_markers]; the decision-point
    legend has, for each decision point in ascending order, a round handle
    filled with that decision point's entry of [decision_colors]. *)
Theorem legend_handles_match_encodings (table : list record) :
  table ≠ [] →
  Forall (λ r, well_delimited (prompt r)) table →
  ∃ fig rows lm dc models decisions,
    render table = Ok fig ∧
    top_df table = Some rows ∧
    llm_markers table = Ok lm ∧
    decision_colors table = Ok dc ∧
    ascending_listing models ((λ r : row, llm r) <$> rows) ∧
    ascending_listing decisions ((λ r : row, ssvc_decision_point r) <$> rows) ∧
    Forall2 (λ e m, lm !! m = Some (le_marker e) ∧ le_facecolor e = "gray")
            (fig_llm_legend fig) models ∧
    Forall2 (λ e c, dc !! c = Some (le_facecolor e) ∧ le_marker e = "o")
            (fig_decision_legend fig) decisions.
Proof.
  intros Hne Hwd. destruct (render_Ok table Hne Hwd) as (top & Hfig & _).
  exists (figure_of table top), (top_rows table),
         (marker_dict table), (color_dict table),
         (sorted_llms table), (sorted_decisions table).
  split_and!.
  - done.
  - by apply top_df_Some.
  - by apply llm_markers_Ok.
  - by apply decision_colors_Ok.
  - apply sorted_llms_listing.
  - apply sorted_decisions_listing.
  - simpl. unfold llm_legend_of. apply Forall2_fmap_l, Forall_Forall2_diag.
    apply Forall_forall. intros l Hl. simpl. split; [|done].
    by apply marker_dict_lookup.
  - simpl. unfold decision_legend_of. apply Forall2_fmap_l, Forall_Forall2_diag.
    apply Forall_forall. intros c Hc. simpl. split; [|done].
    by apply color_dict_lookup.
Qed.

Lemma legend_handles_match_encodings_witness :
  example_table ≠ [] ∧
  Forall (λ r, well_delimited (prompt r)) example_table ∧
  ∃ fig rows lm dc models decisions,
    render example_table = Ok fig ∧
    top_df example_table = Some rows ∧
    llm_markers example_table = Ok lm ∧
    decision_colors example_table = Ok dc ∧
    ascending_listing models ((λ r : row, llm r) <$> rows) ∧
    ascending_listing decisions ((λ r : row, ssvc_decision_point r) <$> rows) ∧
    Forall2 (λ e m, lm !! m = Some (le_marker e) ∧ le_facecolor e = "gray")
            (fig_llm_legend fig) models ∧
    Forall2 (λ e c, dc !! c = Some (le_facecolor e) ∧ le_marker e = "o")
            (fig_decision_legend fig) decisions.
Proof.
  assert (Forall (λ r, well_delimited (prompt r)) example_table) as Hwd
    by by_evaluation.
  split_and!; [done|exact Hwd|].
  apply (legend_handles_match_encodings example_table); [done|exact Hwd].
Defined.

(** X12: there is one scatter call for each pair of a model and a decision
    point that has a row in the subset, and none for any other pair. The
    call plots the rows of its pair, all with the marker of the model and
    each in the colour of the decision point. *)
Theorem one_series_per_pair (table : list record) :
  table ≠ [] →
  Forall (λ r, well_delimited (prompt r)) table →
  ∃ fig rows lm dc pairs,
    render table = Ok fig ∧
    top_df table = Some rows ∧
    llm_markers table = Ok lm ∧
    decision_colors table = Ok dc ∧
    NoDup pairs ∧
    (∀ l d, (l, d) ∈ pairs ↔
            ∃ r : row, r ∈ rows ∧ llm r = l ∧ ssvc_decision_point r = d) ∧
    Forall2
      (λ sc (ld : string * string),
         points sc =
           point_of <$> filter (λ r : row, llm r = ld.1 ∧
                                           ssvc_decision_point r = ld.2) rows ∧
         points sc ≠ [] ∧
         lm !! ld.1 = Some (sc_marker sc) ∧
         length (sc_c sc) = length (points sc) ∧
         Forall (λ c, dc !! ld.2 = Some c) (sc_c sc))
      (fig_scatter fig) pairs.
Proof.
  intros Hne Hwd. destruct (render_Ok table Hne Hwd) as (top & Hfig & _).
  pose proof (sorted_llms_listing table) as Hl.
  pose proof (sorted_decisions_listing table) as Hd.
  set (rows := top_rows table).
  set (pair_of := λ l d : string,
         match filter (λ r : row, llm r = l ∧ ssvc_decision_point r = d) rows
         with [] => [] | _ => [(l, d)] end).
  assert (∀ l d ld, ld ∈ pair_of l d ↔
            ld = (l, d) ∧ ∃ r : row, r ∈ rows ∧ llm r = l ∧
                                     ssvc_decision_point r = d) as Hpair.
  { intros l d ld. unfold pair_of.
    destruct (filter _ rows) as [|r rs] eqn:E.
    - split; [by intros ?%elem_of_nil|]. intros (_ & r & Hr & Hrl & Hrd).
      assert (r ∈ filter (λ r : row, llm r = l ∧ ssvc_decision_point r = d) rows)
        as Hin by (by apply list_elem_of_filter).
      rewrite E in Hin. by apply elem_of_nil in Hin.
    - rewrite list_elem_of_singleton. split; [|by intros []].
      intros ->. split; [done|]. exists r.
      assert (r ∈ filter (λ r : row, llm r = l ∧ ssvc_decision_point r = d) rows)
        as [[? ?] ?]%list_elem_of_filter by (rewrite E; left).
      done. }
  exists (figure_of table top), rows, (marker_dict table), (color_dict table),
    (sorted_llms table ≫= λ l, sorted_decisions table ≫= λ d, pair_of l d).
  split_and!.
  - done.
  - by apply top_df_Some.
  - by apply llm_markers_Ok.
  - by apply decision_colors_Ok.
  - apply NoDup_bind; [| |by eapply ascending_listing_NoDup].
    + intros l1 l2 ld _ _ (d1 & [-> _]%Hpair & _)%list_elem_of_bind
        (d2 & [? _]%Hpair & _)%list_elem_of_bind. congruence.
    + intros l _. apply NoDup_bind; [| |by eapply ascending_listing_NoDup].
      * intros d1 d2 ld _ _ [-> _]%Hpair [? _]%Hpair. congruence.
      * intros d _. unfold pair_of. destruct (filter _ rows).
        -- constructor.
        -- apply NoDup_singleton.
  - intros l d. split.
    + intros (l' & (d' & [Heq Hr]%Hpair & _)%list_elem_of_bind & _)%list_elem_of_bind.
      by injection Heq as -> ->.
    + intros (r & Hr & <- & <-). apply list_elem_of_bind. exists (llm r). split.
      * apply list_elem_of_bind. exists (ssvc_decision_point r). split.
        -- apply Hpair. split; [done|]. by exists r.
        -- apply Hd. by apply list_elem_of_fmap_2 with
             (f := λ r : row, ssvc_decision_point r).
      * apply Hl. by apply list_elem_of_fmap_2 with (f := λ r : row, llm r).
  - simpl. unfold scatter_list. apply Forall2_bind_same. intros l Hin_l.
    apply Forall2_bind_same. intros d Hin_d.
    unfold scatter_of, pair_of. fold rows.
    destruct (filter (λ r : row, llm r = l ∧ ssvc_decision_point r = d) rows)
      as [|r rs] eqn:E; [constructor|].
    constructor; [|constructor]. cbn [fst snd]. rewrite E.
    unfold points; cbn [sc_x sc_y sc_c sc_marker]. rewrite zip_fmap_same.
    split_and!.
    + done.
    + done.
    + by apply marker_dict_lookup.
    + by rewrite length_replicate, !length_fmap.
    + apply Forall_forall. intros c [-> _]%elem_of_replicate.
      by apply color_dict_lookup.
Qed.

Lemma one_series_per_pair_witness :
  example_table ≠ [] ∧
  Forall (λ r, well_delimited (prompt r)) example_table ∧
  ∃ fig rows lm dc pairs,
    render example_table = Ok fig ∧
    top_df example_table = Some rows ∧
    llm_markers example_table = Ok lm ∧
    decision_colors example_table = Ok dc ∧
    NoDup pairs ∧
    (∀ l d, (l, d) ∈ pairs ↔
            ∃ r : row, r ∈ rows ∧ llm r = l ∧ ssvc_decision_point r = d) ∧
    Forall2
      (λ sc (ld : string * string),
         points sc =
           point_of <$> filter (λ r : row, llm r = ld.1 ∧
                                           ssvc_decision_point r = ld.2) rows ∧
         points sc ≠ [] ∧
         lm !! ld.1 = Some (sc_marker sc) ∧
         length (sc_c sc) = length (points sc) ∧
         Forall (λ c, dc !! ld.2 = Some c) (sc_c sc))
      (fig_scatter fig) pairs.
Proof.
  assert (Forall (λ r, well_delimited (prompt r)) example_table) as Hwd
    by by_evaluation.
  split_and!; [done|exact Hwd|].
  apply (one_series_per_pair example_table); [done|exact Hwd].
Defined.

(** ** The score annotations *)

Section annotations_correct.
Variable table : list record.
Variable format_2f : Q → string.
Hypothesis table_not_empty : table ≠ [].

Lemma texts_for_Ok l decision :
  l ∈ sorted_llms table → decision ∈ sorted_decisions table →
  texts_for table format_2f (marker_dict table) (color_dict table) l decision =
  Ok (text_of format_2f <$>
        filter (λ r : row, llm r = l ∧ ssvc_decision_point r = decision)
               (top_rows table)).
Proof.
  intros Hl Hd. unfold texts_for.
  rewrite top_df_Some by done. unfold select. rewrite bind_Ok.
  destruct (filter _ (top_rows table)) as [|r subset]; [done|].
  by rewrite scatter_for_Ok, bind_Ok.
Qed.

Lemma texts_Ok :
  texts table format_2f =
  Ok (sorted_llms table ≫= λ l,
        sorted_decisions table ≫= λ decision,
          text_of format_2f <$>
            filter (λ r : row, llm r = l ∧ ssvc_decision_point r = decision)
                   (top_rows table)).
Proof.
  unfold texts.
  rewrite top_llms_Ok, top_decision_points_Ok, !bind_Ok by done.
  rewrite llm_markers_Ok, decision_colors_Ok, !bind_Ok by done.
  fold (sorted_llms table) (sorted_decisions table).
  rewrite (for_each_Ok _ (λ l, sorted_decisions table ≫= λ decision,
    text_of format_2f <$>
      filter (λ r : row, llm r = l ∧ ssvc_decision_point r = decision)
             (top_rows table))).
  - rewrite bind_Ok. by rewrite concat_fmap_bind.
  - intros l Hl.
    rewrite (for_each_Ok _ (λ decision, text_of format_2f <$>
      filter (λ r : row, llm r = l ∧ ssvc_decision_point r = decision)
             (top_rows table))).
    + by rewrite bind_Ok, concat_fmap_bind.
    + intros decision Hd. by apply texts_for_Ok.
Qed.

(** Going through the pairs of a model and a decision point visits every
    row of the subset once. *)
Lemma pairs_visit_each_row {B} (f : row → B) :
  sorted_llms table ≫= (λ l,
    sorted_decisions table ≫= λ decision,
      f <$> filter (λ r : row, llm r = l ∧ ssvc_decision_point r = decision)
                   (top_rows table))
  ≡ₚ f <$> top_rows table.
Proof.
  pose proof (sorted_llms_listing table) as Hl.
  pose proof (sorted_decisions_listing table) as Hd.
  transitivity (f <$>
    (sorted_llms table ≫= λ l, filter (λ r : row, llm r = l) (top_rows table))).
  2:{ rewrite bind_filter_key_Permutation; [done|by eapply ascending_listing_NoDup|].
      intros r Hr. apply Hl.
      by apply list_elem_of_fmap_2 with (f := λ r : row, llm r). }
  rewrite fmap_bind_comm. apply bind_Permutation_ext. intros l _.
  transitivity (f <$>
    (sorted_decisions table ≫= λ decision,
       filter (λ r : row, ssvc_decision_point r = decision)
              (filter (λ r : row, llm r = l) (top_rows table)))).
  2:{ rewrite bind_filter_key_Permutation; [done|by eapply ascending_listing_NoDup|].
      intros r [_ Hr]%list_elem_of_filter. apply Hd.
      by apply list_elem_of_fmap_2 with (f := λ r : row, ssvc_decision_point r). }
  rewrite fmap_bind_comm. apply bind_Permutation_ext. intros decision _.
  rewrite list_filter_filter.
  erewrite list_filter_iff; [done|]. naive_solver.
Qed.
End annotations_correct.

(** X15: every row of the subset gets one score label and there is no other
    label. A label is put at the height of its point, 0.15 to the right of
    the tick of the row's technique, and shows the score of the row in the
    format of line 86. *)
Theorem one_label_per_point (table : list record) (format_2f : Q → string) :
  table ≠ [] →
  ∃ rows ts,
    top_df table = Some rows ∧
    texts table format_2f = Ok ts ∧
    ts ≡ₚ (λ r : row,
             mkText ((λ k : nat, inject_Z (Z.of_nat k) + 0.15)%Q
                       <$> prompt_numeric r)
                    (f1_harmonic_mean r) (format_2f (f1_harmonic_mean r)))
          <$> rows ∧
    Forall (λ t, tx_s t = format_2f (tx_y t) ∧
                 ∃ k : nat, (k < length (prompts table))%nat ∧
                            tx_x t = Some (inject_Z (Z.of_nat k) + 0.15)%Q) ts.
Proof.
  intros Hne. exists (top_rows table). eexists.
  assert (sorted_llms table ≫= (λ l,
            sorted_decisions table ≫= λ decision,
              text_of format_2f <$>
                filter (λ r : row, llm r = l ∧ ssvc_decision_point r = decision)
                       (top_rows table))
          ≡ₚ text_of format_2f <$> top_rows table) as Hperm
    by apply pairs_visit_each_row.
  split_and!.
  - by apply top_df_Some.
  - by apply texts_Ok.
  - exact Hperm.
  - rewrite Hperm. apply Forall_forall.
    intros t (r & -> & Hr)%list_elem_of_fmap. split; [done|].
    apply elem_of_top_rows in Hr.
    destruct (df_prompt_numeric table r Hr) as (k & Hk & Hp).
    exists k. simpl. rewrite Hk. split; [|done].
    apply lookup_lt_Some in Hp. unfold sorted in Hp.
    by rewrite length_stable_sort in Hp.
Qed.

Lemma one_label_per_point_witness :
  example_table ≠ [] ∧
  ∃ rows ts,
    top_df example_table = Some rows ∧
    texts example_table (λ _, "0.00") = Ok ts ∧
    ts ≡ₚ (λ r : row,
             mkText ((λ k : nat, inject_Z (Z.of_nat k) + 0.15)%Q
                       <$> prompt_numeric r)
                    (f1_harmonic_mean r) ((λ _, "0.00") (f1_harmonic_mean r)))
          <$> rows ∧
    Forall (λ t, tx_s t = (λ _, "0.00") (tx_y t) ∧
                 ∃ k : nat, (k < length (prompts example_table))%nat ∧
                            tx_x t = Some (inject_Z (Z.of_nat k) + 0.15)%Q) ts.
Proof.
  split; [done|]. apply (one_label_per_point example_table (λ _, "0.00")). done.
Defined.
